(** * The two-queue (2Q) cache of common/cache/twoQueue/twoQueue.go

    The cache composes three bounded recency-ordered stores: [recent]
    (entries seen once), [frequent] (entries seen at least twice) and
    [recentEvict] (the "ghost" store: keys recently evicted from [recent]).

    Every public method of the Go type takes the one lock of the cache for
    its whole body, so each method is modelled as one atomic state
    transformer.  Reads of the clock done by the stores are made explicit:
    every operation that consults expiry receives the current instant. *)

From Stdlib Require Import ZArith Floats Uint63 Lia.
From stdpp Require Import base decidable option list strings.

#[local] Open Scope Z_scope.

(** ** Instants and numeric conversions *)

(** A [time.Time] at the whole-second resolution the stores keep: seconds
    since the Unix epoch. *)
Definition instant : Type := Z.

(** Go's [float64(n)] for an [int] that fits 63 bits (every positive [int]). *)
Definition float64_of_int (n : Z) : float := PrimFloat.of_uint63 (Uint63.of_Z n).

(** Go's [int(f)]: truncation towards zero.  When the value is not
    representable (NaN, infinities, magnitude beyond 64 bits) Go leaves the
    result to the implementation; the model returns the amd64 result, the
    smallest [int]. *)
Definition min_int : Z := - 2 ^ 63.

Definition int_of_float64 (f : float) : Z :=
  match Prim2SF f with
  | S754_zero _ => 0
  | S754_finite s m e =>
      let mag := if 0 <=? e then Z.pos m * 2 ^ e else Z.pos m / 2 ^ (- e) in
      let v := if s then - mag else mag in
      if (min_int <=? v) && (v <? 2 ^ 63) then v else min_int
  | S754_infinity _ | S754_nan => min_int
  end.

(** A ratio that lies in the closed unit interval, in IEEE 754 comparisons
    (false whenever the ratio is not a number). *)
Definition in_unit (r : float) : Prop :=
  (0 <=? r)%float = true /\ (r <=? 1)%float = true.

(** ** The bounded ordered store (package [lru]) *)

Module lru.
Section store.
Context {K V : Type} `{!EqDecision K}.

(** Modelled from the spec: the package common/cache/lru (the type
    [lru.LruCache] and its methods) is not among the sources.  The spec
    (sections 2, 3 and 6) asks for a capacity-bounded mapping from key to
    value with recency ordering, which evicts the least-recently-touched
    entry on overflow, can peek without touching the order, keeps an
    optional expiry per entry and treats an expired entry as absent on
    [Get], [Peek] and [Exist] (expiry is checked on read; nothing is
    evicted proactively).  An entry is a key, a value and its expiry. *)
Record entry : Type := Entry {
  key : K;
  value : V;
  expires : option instant
}.

(** Modelled from the spec: the store is its declared capacity and its
    entries, oldest first; the head of [items] is the
    least-recently-touched entry and each key occurs at most once. *)
Record LruCache : Type := Store {
  maxSize : Z;
  items : list entry
}.

(** Modelled from the spec: [lru.New(lru.WithSize(size))], an empty store of
    the given capacity. *)
Definition New (size : Z) : LruCache := {| maxSize := size; items := [] |}.

Definition has_key (k : K) (e : entry) : bool := bool_decide (key e = k).

(** Modelled from the spec: an entry is live at [now] when it has no expiry
    or has not reached it; the spec does not say which side the instant of
    expiry itself falls on, here the entry is expired from that instant. *)
Definition live (now : instant) (e : entry) : bool :=
  match expires e with
  | None => true
  | Some t => now <? t
  end.

Definition entry_of (c : LruCache) (k : K) : option entry :=
  List.find (has_key k) (items c).

Definition without (k : K) (l : list entry) : list entry :=
  List.filter (fun e => negb (has_key k e)) l.

(** Modelled from the spec: the store enforces its declared capacity; after
    a new entry is appended, the oldest entry is dropped when the capacity
    is exceeded. *)
Definition trim (m : Z) (l : list entry) : list entry :=
  if m <? Z.of_nat (length l) then tail l else l.

(** Modelled from the spec: [Len], the number of entries held; expiry is
    only looked at by the three reads below. *)
Definition Len (c : LruCache) : Z := Z.of_nat (length (items c)).

(** Modelled from the spec: [Peek] reads a live entry and leaves the order
    alone. *)
Definition Peek (now : instant) (c : LruCache) (k : K) : option V :=
  match entry_of c k with
  | Some e => if live now e then Some (value e) else None
  | None => None
  end.

(** Modelled from the spec: [Exist], whether a live entry has the key. *)
Definition Exist (now : instant) (c : LruCache) (k : K) : bool :=
  match entry_of c k with
  | Some e => live now e
  | None => false
  end.

(** Modelled from the spec: [Get] reads a live entry and touches it, so
    that it becomes the most recent one; a miss changes nothing. *)
Definition Get (now : instant) (c : LruCache) (k : K) : option V * LruCache :=
  match entry_of c k with
  | Some e =>
      if live now e
      then (Some (value e),
            {| maxSize := maxSize c; items := without k (items c) ++ [e] |})
      else (None, c)
  | None => (None, c)
  end.

(** Modelled from the spec: insertion.  A key already held is overwritten in
    place and becomes the most recent entry; a new key is appended and the
    capacity enforced. *)
Definition put (c : LruCache) (k : K) (v : V) (exp : option instant) : LruCache :=
  let e := Entry k v exp in
  if existsb (has_key k) (items c)
  then {| maxSize := maxSize c; items := without k (items c) ++ [e] |}
  else {| maxSize := maxSize c; items := trim (maxSize c) (items c ++ [e]) |}.

(** Modelled from the spec: [Set], insertion with no expiry (the method is
    named [Set] in Go, a reserved word here). *)
Definition Set_ (c : LruCache) (k : K) (v : V) : LruCache := put c k v None.

(** Modelled from the spec: [SetWithExpire], insertion with an expiry. *)
Definition SetWithExpire (c : LruCache) (k : K) (v : V) (t : instant) : LruCache :=
  put c k v (Some t).

(** Modelled from the spec: [Delete]; nothing happens when the key is not
    held. *)
Definition Delete (c : LruCache) (k : K) : LruCache :=
  {| maxSize := maxSize c; items := without k (items c) |}.

(** Modelled from the spec: [DeleteOldest] evicts the oldest entry and
    returns its key; the spec is silent on an empty store, where nothing
    happens here and no key is returned. *)
Definition DeleteOldest (c : LruCache) : option K * LruCache :=
  match items c with
  | [] => (None, c)
  | e :: l => (Some (key e), {| maxSize := maxSize c; items := l |})
  end.

(** Modelled from the spec: [Clear] empties the store. *)
Definition Clear (c : LruCache) : LruCache :=
  {| maxSize := maxSize c; items := [] |}.

(** The keys physically held, oldest first. *)
Definition keys (c : LruCache) : list K := map key (items c).

End store.
Arguments entry : clear implicits.
Arguments LruCache : clear implicits.
End lru.

(** ** The two-queue cache (package [twoQ]) *)

Module twoQ.

Definition Default2QRecentRatio : float := 0.25%float.
Definition Default2QGhostEntries : float := 0.5%float.

(** Go's [error] interface; the constructor only ever returns [nil]. *)
Definition error : Type := string.

Section cache.
Context {K V : Type} `{!EqDecision K}.

(** The struct [TwoQueueCache].  The lock [mu] has no counterpart: every
    method holds it from entry to return, so the methods below are the
    atomic steps of the cache. *)
Record TwoQueueCache : Type := Cache {
  size : Z;
  recentSize : Z;
  recent : lru.LruCache K V;
  frequent : lru.LruCache K V;
  recentEvict : lru.LruCache K unit
}.

(** Assignments to one field through the pointer [c]. *)
Definition with_recent (c : TwoQueueCache) (r : lru.LruCache K V) : TwoQueueCache :=
  Cache (size c) (recentSize c) r (frequent c) (recentEvict c).
Definition with_frequent (c : TwoQueueCache) (f : lru.LruCache K V) : TwoQueueCache :=
  Cache (size c) (recentSize c) (recent c) f (recentEvict c).
Definition with_recentEvict (c : TwoQueueCache) (g : lru.LruCache K unit) : TwoQueueCache :=
  Cache (size c) (recentSize c) (recent c) (frequent c) g.

(** [New2QParams] (lines 38-61): a [nil] result is [None]. *)
Definition New2QParams (size : Z) (recentRatio ghostRatio : float)
  : option TwoQueueCache :=
  if size <=? 0 then None
  else if (recentRatio <? 0)%float || (1 <? recentRatio)%float then None
  else if (ghostRatio <? 0)%float || (1 <? ghostRatio)%float then None
  else
    let recentSize := int_of_float64 (float64_of_int size * recentRatio) in
    let evictSize := int_of_float64 (float64_of_int size * ghostRatio) in
    Some {| size := size;
            recentSize := recentSize;
            recent := lru.New size;
            frequent := lru.New size;
            recentEvict := lru.New evictSize |}.

(** [New] (lines 32-34): the pair of the instance and the error. *)
Definition New (size : Z) : option TwoQueueCache * option error :=
  (New2QParams size Default2QRecentRatio Default2QGhostEntries, None).

(** [ensureSpace] (lines 120-138).  [DeleteOldest] on [recent] is only
    reached with [recentLen > 0], where it returns a key. *)
Definition ensureSpace (recentEvict_ : bool) (c : TwoQueueCache) : TwoQueueCache :=
  let recentLen := lru.Len (recent c) in
  let freqLen := lru.Len (frequent c) in
  if recentLen + freqLen <? size c then c
  else if (0 <? recentLen)
          && ((recentSize c <? recentLen)
              || ((recentLen =? recentSize c) && negb recentEvict_))
  then
    match lru.DeleteOldest (recent c) with
    | (Some k, r) =>
        with_recentEvict (with_recent c r) (lru.Set_ (recentEvict c) k tt)
    | (None, r) => with_recent c r
    end
  else with_frequent c (snd (lru.DeleteOldest (frequent c))).

(** [Get] (lines 65-83): the value found, if any ([found] is whether there
    is one), and the cache afterwards. *)
Definition Get (now : instant) (c : TwoQueueCache) (key : K)
  : option V * TwoQueueCache :=
  match lru.Get now (frequent c) key with
  | (Some val, f) => (Some val, with_frequent c f)
  | (None, _) =>
      match lru.Peek now (recent c) key with
      | Some val =>
          let c1 := with_recent c (lru.Delete (recent c) key) in
          (Some val, with_frequent c1 (lru.Set_ (frequent c1) key val))
      | None => (None, c)
      end
  end.

(** [Set] (lines 86-117). *)
Definition Set_ (now : instant) (c : TwoQueueCache) (key : K) (value : V)
  : TwoQueueCache :=
  if lru.Exist now (frequent c) key
  then with_frequent c (lru.Set_ (frequent c) key value)
  else if lru.Exist now (recent c) key
  then
    let c1 := with_recent c (lru.Delete (recent c) key) in
    with_frequent c1 (lru.Set_ (frequent c1) key value)
  else if lru.Exist now (recentEvict c) key
  then
    let c1 := ensureSpace true c in
    let c2 := with_recentEvict c1 (lru.Delete (recentEvict c1) key) in
    with_frequent c2 (lru.Set_ (frequent c2) key value)
  else
    let c1 := ensureSpace false c in
    with_recent c1 (lru.Set_ (recent c1) key value).

(** [SetWithExpire] (lines 142-152). *)
Definition SetWithExpire (now : instant) (c : TwoQueueCache) (key : K) (value : V)
    (expires : instant) : TwoQueueCache :=
  if lru.Exist now (frequent c) key
  then with_frequent c (lru.Set_ (frequent c) key value)
  else with_recent c (lru.SetWithExpire (recent c) key value expires).

(** [Delete] (lines 155-162). *)
Definition Delete (c : TwoQueueCache) (key : K) : TwoQueueCache :=
  let c1 := with_frequent c (lru.Delete (frequent c) key) in
  let c2 := with_recent c1 (lru.Delete (recent c1) key) in
  with_recentEvict c2 (lru.Delete (recentEvict c2) key).

(** [Clear] (lines 165-171). *)
Definition Clear (c : TwoQueueCache) : TwoQueueCache :=
  let c1 := with_recent c (lru.Clear (recent c)) in
  let c2 := with_frequent c1 (lru.Clear (frequent c1)) in
  with_recentEvict c2 (lru.Clear (recentEvict c2)).

(** *** Runs of public operations *)

Inductive op : Type :=
| OpSet (key : K) (value : V)
| OpSetWithExpire (key : K) (value : V) (expires : instant)
| OpGet (key : K)
| OpDelete (key : K)
| OpClear.

Definition step (now : instant) (o : op) (c : TwoQueueCache) : TwoQueueCache :=
  match o with
  | OpSet k v => Set_ now c k v
  | OpSetWithExpire k v t => SetWithExpire now c k v t
  | OpGet k => snd (Get now c k)
  | OpDelete k => Delete c k
  | OpClear => Clear c
  end.

(** A run is a list of operations, each stamped with the instant at which
    it executes. *)
Fixpoint run (c : TwoQueueCache) (tr : list (instant * op)) : TwoQueueCache :=
  match tr with
  | [] => c
  | (now, o) :: tr' => run (step now o c) tr'
  end.

(** The stamps of a run never go back, starting from [now]. *)
Fixpoint clock_ok (now : instant) (tr : list (instant * op)) : Prop :=
  match tr with
  | [] => True
  | (t, _) :: tr' => now <= t /\ clock_ok t tr'
  end.

(** The instant at which a run that starts at [now] ends. *)
Fixpoint end_of (now : instant) (tr : list (instant * op)) : instant :=
  match tr with
  | [] => now
  | (t, _) :: tr' => end_of t tr'
  end.

(** The states a cache can be observed in: the clock never goes back. *)
Inductive reachable : instant -> TwoQueueCache -> Prop :=
| reach_new size rr gr c now :
    New2QParams size rr gr = Some c -> reachable now c
| reach_wait now now' c :
    reachable now c -> now <= now' -> reachable now' c
| reach_step now o c :
    reachable now c -> reachable now (step now o c).

End cache.
Arguments TwoQueueCache : clear implicits.
Arguments op : clear implicits.

End twoQ.

(** ** Observations and invariants *)

Section observations.
Context {K V : Type} `{!EqDecision K}.

(** No entry of the store carries an expiry. *)
Definition no_expiry {W : Type} (s : lru.LruCache K W) : Prop :=
  forall e, In e (lru.items s) -> lru.expires e = None.

(** Every entry of [recent] that is live at [now] has a key that
    [frequent] does not hold. *)
Definition live_recent_apart (now : instant) (c : twoQ.TwoQueueCache K V) : Prop :=
  forall e, In e (lru.items (twoQ.recent c)) -> lru.live now e = true ->
            ~ In (lru.key e) (lru.keys (twoQ.frequent c)).

Definition disjoint_inv (now : instant) (c : twoQ.TwoQueueCache K V) : Prop :=
  List.NoDup (lru.keys (twoQ.recent c))
  /\ no_expiry (twoQ.frequent c)
  /\ live_recent_apart now c.

(** The number of value-holding entries, [|recent| + |frequent|]. *)
Definition held (c : twoQ.TwoQueueCache K V) : Z :=
  lru.Len (twoQ.recent c) + lru.Len (twoQ.frequent c).

(** What an observer sees of the three stores: the keys, oldest first. *)
Definition view (c : twoQ.TwoQueueCache K V) : list K * list K * list K :=
  (lru.keys (twoQ.recent c), lru.keys (twoQ.frequent c),
   lru.keys (twoQ.recentEvict c)).

(** The capacity is [sz] and positive, the target for [recent] is below
    it, and the two value-holding stores fit it. *)
Definition cap_inv (sz : Z) (c : twoQ.TwoQueueCache K V) : Prop :=
  twoQ.size c = sz /\ 0 < sz /\ twoQ.recentSize c < sz /\ held c <= sz.

(** What construction fixes for the life of a cache: the two size fields
    and the capacities of [recent], [frequent] and the ghost store. *)
Definition shape (c : twoQ.TwoQueueCache K V) : Z * Z * Z * Z * Z :=
  (twoQ.size c, twoQ.recentSize c, lru.maxSize (twoQ.recent c),
   lru.maxSize (twoQ.frequent c), lru.maxSize (twoQ.recentEvict c)).

(** A key that none of the three stores holds. *)
Definition unknown (k : K) (c : twoQ.TwoQueueCache K V) : Prop :=
  ~ In k (lru.keys (twoQ.recent c))
  /\ ~ In k (lru.keys (twoQ.frequent c))
  /\ ~ In k (lru.keys (twoQ.recentEvict c)).

(** The stores of a cache that never saw [SetWithExpire]: no entry carries
    an expiry, [recent] holds each key once, no key of [recent] is in
    [frequent], and no key of the ghost store is in [recent] or
    [frequent]. *)
Definition plain_inv (c : twoQ.TwoQueueCache K V) : Prop :=
  List.NoDup (lru.keys (twoQ.recent c))
  /\ no_expiry (twoQ.recent c)
  /\ no_expiry (twoQ.frequent c)
  /\ no_expiry (twoQ.recentEvict c)
  /\ (forall k, In k (lru.keys (twoQ.recent c)) ->
                ~ In k (lru.keys (twoQ.frequent c)))
  /\ (forall k, In k (lru.keys (twoQ.recentEvict c)) ->
                ~ In k (lru.keys (twoQ.recent c))
                /\ ~ In k (lru.keys (twoQ.frequent c))).

(** [for _, e := range kvs { c.Set(e.key, e.value) }], all at instant
    [now]. *)
Definition set_each (now : instant) (c : twoQ.TwoQueueCache K V)
    (kvs : list (K * V)) : twoQ.TwoQueueCache K V :=
  fold_left (fun c e => twoQ.Set_ now c (fst e) (snd e)) kvs c.

(** A key whose value the cache holds, in [recent] or in [frequent]. *)
Definition resident (k : K) (c : twoQ.TwoQueueCache K V) : Prop :=
  In k (lru.keys (twoQ.recent c)) \/ In k (lru.keys (twoQ.frequent c)).

(** The operations other than [SetWithExpire]. *)
Definition plain (o : twoQ.op K V) : Prop :=
  match o with
  | twoQ.OpSetWithExpire _ _ _ => False
  | _ => True
  end.

End observations.

(** ** The scenario of TestTwoQCache *)

Module scenario.

Definition cache : Type := twoQ.TwoQueueCache string string.

Definition entries : list (string * string) :=
  [("1", "one"); ("2", "two"); ("3", "three"); ("4", "four"); ("5", "five")].

(** [for _, e := range es { c.Set(e.key, e.value) }] *)
Definition set_all (now : instant) (c : cache) (es : list (string * string)) : cache :=
  fold_left (fun c e => twoQ.Set_ now c (fst e) (snd e)) es c.

(** [c, _ := New[string, string](4)]; a [nil] cache is never used by the
    test, the empty cache stands for it here. *)
Definition fresh (size : Z) : cache :=
  match fst (twoQ.New size) with
  | Some c => c
  | None => twoQ.Cache 0 0 (lru.New 0) (lru.New 0) (lru.New 0)
  end.

(** The state after the loop of [Set] calls. *)
Definition after_sets (now : instant) : cache := set_all now (fresh 4) entries.

(** The state after [c.Get("1"); c.Get("2"); c.Get("2")]. *)
Definition after_gets (now : instant) : cache :=
  let c1 := snd (twoQ.Get now (after_sets now) "1") in
  let c2 := snd (twoQ.Get now c1 "2") in
  snd (twoQ.Get now c2 "2").

(** The state after [c.Get("5")] and [c.Set("6", "six")]. *)
Definition after_six (now : instant) : cache :=
  twoQ.Set_ now (snd (twoQ.Get now (after_gets now) "5")) "6" "six".

(** Four keys set and read once each, which fills [frequent]. *)
Definition four_hot (now : instant) : cache :=
  fold_left
    (fun c e => snd (twoQ.Get now (twoQ.Set_ now c (fst e) (snd e)) (fst e)))
    (firstn 4 entries) (fresh 4).

(** The loop of [Set] calls as a run at instant 0. *)
Definition sets_run : list (instant * twoQ.op string string) :=
  map (fun e => (0, twoQ.OpSet (fst e) (snd e))) entries.

(** A run that mixes the operations other than [SetWithExpire]. *)
Definition mixed_run : list (instant * twoQ.op string string) :=
  [(0, twoQ.OpSet "1" "one"); (0, twoQ.OpGet "1"); (1, twoQ.OpSet "2" "two");
   (1, twoQ.OpSet "3" "three"); (2, twoQ.OpSet "4" "four");
   (2, twoQ.OpSet "5" "five"); (3, twoQ.OpSet "1" "uno");
   (3, twoQ.OpDelete "2"); (4, twoQ.OpSet "6" "six"); (4, twoQ.OpGet "9")].

(** One key set and read, so that [frequent] holds it. *)
Definition warm : cache :=
  snd (twoQ.Get 0 (twoQ.Set_ 0 (fresh 4) "a" "alpha") "a").


End scenario.

(** * Facts about the bounded ordered store *)

Section lru_facts.
Import lru.
Context {K V : Type} `{!EqDecision K}.
Implicit Types (k : K) (e : entry K V) (l : list (entry K V)) (c : LruCache K V).

Lemma has_key_true k e : has_key k e = true <-> key e = k.
Proof. unfold has_key. apply bool_decide_eq_true. Qed.

Lemma has_key_false k e : has_key k e = false <-> key e <> k.
Proof. unfold has_key. apply bool_decide_eq_false. Qed.

Lemma In_without k e l : In e (without k l) <-> In e l /\ key e <> k.
Proof.
  unfold without. rewrite List.filter_In, Bool.negb_true_iff, has_key_false.
  reflexivity.
Qed.

Lemma without_keep k l : ~ In k (map key l) -> without k l = l.
Proof.
  induction l as [|e l IH]; simpl; intros Hk; [reflexivity|].
  destruct (has_key k e) eqn:He.
  - apply has_key_true in He. tauto.
  - simpl. f_equal. apply IH. tauto.
Qed.

Lemma In_keys_without k k' l :
  In k' (map key (without k l)) <-> In k' (map key l) /\ k' <> k.
Proof.
  rewrite !List.in_map_iff. split.
  - intros (e & <- & He). apply In_without in He as [He Hne]. eauto.
  - intros ((e & <- & He) & Hne). exists e. split; [reflexivity|].
    apply In_without. auto.
Qed.

Lemma NoDup_keys_without k l :
  List.NoDup (map key l) -> List.NoDup (map key (without k l)).
Proof.
  induction l as [|e l IH]; simpl; intros Hnd; [constructor|].
  apply List.NoDup_cons_iff in Hnd as [Hin Hnd].
  destruct (has_key k e); simpl; [auto|].
  constructor; [|auto]. rewrite In_keys_without. tauto.
Qed.

Lemma length_without k l : (length (without k l) <= length l)%nat.
Proof. apply List.filter_length_le. Qed.

Lemma length_without_In k l :
  In k (map key l) -> (length (without k l) < length l)%nat.
Proof.
  induction l as [|e l IH]; simpl; [tauto|]. intros [He|Hin].
  - apply has_key_true in He. rewrite He. simpl.
    pose proof (length_without k l). lia.
  - destruct (has_key k e); simpl; [pose proof (length_without k l)|apply IH in Hin]; lia.
Qed.

Lemma find_has_key k l e :
  List.find (has_key k) l = Some e -> In e l /\ key e = k.
Proof. intros H. apply List.find_some in H. rewrite has_key_true in H. exact H. Qed.

Lemma find_has_key_None k l :
  List.find (has_key k) l = None <-> ~ In k (map key l).
Proof.
  induction l as [|e l IH]; simpl; [tauto|].
  destruct (has_key k e) eqn:He.
  - apply has_key_true in He. split; [discriminate|tauto].
  - apply has_key_false in He. rewrite IH. tauto.
Qed.

Lemma find_has_key_NoDup l e :
  List.NoDup (map key l) -> In e l -> List.find (has_key (key e)) l = Some e.
Proof.
  induction l as [|e' l IH]; simpl; [tauto|]. intros Hnd Hin.
  apply List.NoDup_cons_iff in Hnd as [Hnin Hnd].
  destruct Hin as [->|Hin].
  - assert (has_key (key e) e = true) as -> by (apply has_key_true; reflexivity).
    reflexivity.
  - destruct (has_key (key e) e') eqn:He; [|auto].
    apply has_key_true in He. exfalso. apply Hnin. rewrite He.
    apply List.in_map. exact Hin.
Qed.

Lemma existsb_has_key k l : existsb (has_key k) l = true <-> In k (map key l).
Proof.
  rewrite List.existsb_exists, List.in_map_iff. split.
  - intros (e & He & Hk). apply has_key_true in Hk. eauto.
  - intros (e & Hk & He). exists e. rewrite has_key_true. auto.
Qed.

Lemma existsb_has_key_false k l : existsb (has_key k) l = false <-> ~ In k (map key l).
Proof. rewrite <- existsb_has_key. destruct (existsb _ _); split; congruence. Qed.

Lemma find_without_same k l : List.find (has_key k) (without k l) = None.
Proof. apply find_has_key_None. rewrite In_keys_without. tauto. Qed.

Lemma find_app_has_key k l l' :
  List.find (has_key k) (l ++ l') =
  match List.find (has_key k) l with
  | Some e => Some e
  | None => List.find (has_key k) l'
  end.
Proof.
  induction l as [|e l IH]; simpl; [reflexivity|].
  destruct (has_key k e); [reflexivity|exact IH].
Qed.

Lemma In_tail {A} (x : A) (l : list A) : In x (tail l) -> In x l.
Proof. destruct l; simpl; auto. Qed.

Lemma NoDup_tail {A} (l : list A) : List.NoDup l -> List.NoDup (tail l).
Proof. destruct l; simpl; [auto|]. intros H. apply List.NoDup_cons_iff in H. tauto. Qed.

Lemma map_tail {A B} (f : A -> B) (l : list A) : map f (tail l) = tail (map f l).
Proof. destruct l; reflexivity. Qed.

Lemma In_trim m x l : In x (trim m l) -> In x l.
Proof. unfold trim. destruct (m <? _); [apply In_tail|auto]. Qed.

Lemma NoDup_keys_trim m l :
  List.NoDup (map key l) -> List.NoDup (map key (trim m l)).
Proof.
  unfold trim. destruct (m <? _); [|auto].
  rewrite map_tail. apply NoDup_tail.
Qed.

Lemma length_trim m l :
  0 <= m -> Z.of_nat (length l) <= m + 1 -> Z.of_nat (length (trim m l)) <= m.
Proof.
  unfold trim. intros Hm Hl. destruct (Z.ltb_spec m (Z.of_nat (length l))); [|lia].
  destruct l; simpl in *; lia.
Qed.

(** The store stays within its declared capacity. *)
Lemma put_within_capacity c k v exp :
  0 <= maxSize c -> Len c <= maxSize c -> Len (put c k v exp) <= maxSize c.
Proof.
  unfold Len, put. intros Hm Hl. destruct (existsb _ _) eqn:Hex; simpl.
  - apply existsb_has_key in Hex. rewrite List.length_app. simpl.
    pose proof (length_without_In k (items c) Hex). lia.
  - apply length_trim; [exact Hm|]. rewrite List.length_app. simpl. lia.
Qed.

(** What [put] leaves in the store: the new entry and old entries with
    other keys. *)
Lemma In_items_put c k v exp e :
  In e (items (put c k v exp)) ->
  e = Entry k v exp \/ (In e (items c) /\ key e <> k).
Proof.
  unfold put. destruct (existsb _ _) eqn:Hex; simpl.
  - rewrite List.in_app_iff, In_without. simpl. intuition auto.
  - intros H. apply In_trim in H. apply existsb_has_key_false in Hex.
    rewrite List.in_app_iff in H. simpl in H.
    destruct H as [H|[H|[]]]; [right|left; auto].
    split; [exact H|]. intros Hk. apply Hex. rewrite <- Hk.
    apply List.in_map. exact H.
Qed.

Lemma In_keys_put c k v exp k' :
  In k' (keys (put c k v exp)) -> k' = k \/ In k' (keys c).
Proof.
  unfold keys. rewrite List.in_map_iff. intros (e & <- & He).
  apply In_items_put in He as [->|[He _]]; [left; reflexivity|right].
  apply List.in_map. exact He.
Qed.

Lemma NoDup_keys_put c k v exp :
  List.NoDup (keys c) -> List.NoDup (keys (put c k v exp)).
Proof.
  unfold keys, put. intros Hnd. destruct (existsb _ _) eqn:Hex; simpl.
  - rewrite List.map_app. simpl. apply List.NoDup_app; repeat split.
    + apply NoDup_keys_without. exact Hnd.
    + repeat constructor. simpl. tauto.
    + intros x Hx [<-|[]]. apply In_keys_without in Hx. tauto.
  - apply NoDup_keys_trim. rewrite List.map_app. simpl.
    apply existsb_has_key_false in Hex.
    apply List.NoDup_app; repeat split.
    + exact Hnd.
    + repeat constructor. simpl. tauto.
    + intros x Hx [<-|[]]. tauto.
Qed.

End lru_facts.

(** * Facts about the two-queue cache *)

Section twoQ_facts.
Import twoQ.
Context {K V : Type} `{!EqDecision K}.
Implicit Types (k : K) (c : TwoQueueCache K V) (now : instant).

(** ** Reading the membership tests *)

Lemma Exist_true_In {W} now (s : lru.LruCache K W) k :
  lru.Exist now s k = true ->
  exists e, In e (lru.items s) /\ lru.key e = k /\ lru.live now e = true.
Proof.
  unfold lru.Exist, lru.entry_of. destruct (List.find _ _) as [e|] eqn:Hf; [|discriminate].
  intros Hl. apply find_has_key in Hf as [Hin Hk]. eauto.
Qed.

Lemma Exist_false_not_live {W} now (s : lru.LruCache K W) k :
  List.NoDup (lru.keys s) -> lru.Exist now s k = false ->
  forall e, In e (lru.items s) -> lru.key e = k -> lru.live now e = false.
Proof.
  intros Hnd Hex e He <-. unfold lru.Exist, lru.entry_of in Hex.
  rewrite (find_has_key_NoDup _ _ Hnd He) in Hex. exact Hex.
Qed.

Lemma Exist_false_absent {W} now (s : lru.LruCache K W) k :
  no_expiry s -> lru.Exist now s k = false -> ~ In k (lru.keys s).
Proof.
  unfold lru.Exist, lru.entry_of. intros Hne Hex.
  destruct (List.find _ _) as [e|] eqn:Hf.
  - apply find_has_key in Hf as [Hin _]. unfold lru.live in Hex.
    rewrite (Hne e Hin) in Hex. discriminate.
  - apply find_has_key_None. exact Hf.
Qed.

Lemma Exist_absent {W} now (s : lru.LruCache K W) k :
  ~ In k (lru.keys s) -> lru.Exist now s k = false.
Proof.
  intros H. unfold lru.Exist, lru.entry_of.
  apply find_has_key_None in H. rewrite H. reflexivity.
Qed.

Lemma live_mono {W} now now' (e : lru.entry K W) :
  now <= now' -> lru.live now' e = true -> lru.live now e = true.
Proof.
  unfold lru.live. destruct (lru.expires e); [|auto].
  rewrite !Z.ltb_lt. lia.
Qed.

(** ** The shape of [ensureSpace] *)

Lemma ensureSpace_recent_sub b c e :
  In e (lru.items (recent (ensureSpace b c))) -> In e (lru.items (recent c)).
Proof.
  unfold ensureSpace. destruct (_ <? size c); [auto|].
  destruct (_ && _); [|auto].
  unfold lru.DeleteOldest. destruct (lru.items (recent c)) eqn:Hi; simpl.
  - rewrite Hi. auto.
  - auto.
Qed.

Lemma ensureSpace_recent_NoDup b c :
  List.NoDup (lru.keys (recent c)) -> List.NoDup (lru.keys (recent (ensureSpace b c))).
Proof.
  unfold ensureSpace, lru.keys. destruct (_ <? size c); [auto|].
  destruct (_ && _); [|auto].
  unfold lru.DeleteOldest. destruct (lru.items (recent c)) eqn:Hi; simpl.
  - rewrite Hi. auto.
  - intros H. apply List.NoDup_cons_iff in H. tauto.
Qed.

Lemma ensureSpace_frequent_sub b c e :
  In e (lru.items (frequent (ensureSpace b c))) -> In e (lru.items (frequent c)).
Proof.
  unfold ensureSpace. destruct (_ <? size c); [auto|].
  destruct (_ && _).
  - destruct (lru.DeleteOldest (recent c)) as [[k|] r]; auto.
  - unfold lru.DeleteOldest. destruct (lru.items (frequent c)) eqn:Hi; simpl.
    + rewrite Hi. auto.
    + auto.
Qed.

(** ** Preservation of [disjoint_inv] *)

Lemma inv_shrink now c c' :
  (forall e, In e (lru.items (recent c')) -> In e (lru.items (recent c))) ->
  (forall e, In e (lru.items (frequent c')) -> In e (lru.items (frequent c))) ->
  List.NoDup (lru.keys (recent c')) ->
  disjoint_inv now c -> disjoint_inv now c'.
Proof.
  intros Hr Hf Hnd (_ & Hne & Hap). repeat split; [exact Hnd|..].
  - intros e He. apply Hne, Hf, He.
  - intros e He Hl Hin. apply (Hap e (Hr e He) Hl).
    unfold lru.keys in *. apply List.in_map_iff in Hin as (e' & Hk & He').
    rewrite <- Hk. apply List.in_map, Hf, He'.
Qed.

Lemma inv_ensureSpace now b c :
  disjoint_inv now c -> disjoint_inv now (ensureSpace b c).
Proof.
  intros H. apply (inv_shrink now c); [apply ensureSpace_recent_sub|
    apply ensureSpace_frequent_sub|apply ensureSpace_recent_NoDup, H|exact H].
Qed.

Lemma inv_with_recentEvict now c g :
  disjoint_inv now c -> disjoint_inv now (with_recentEvict c g).
Proof. intros H. exact H. Qed.

Lemma inv_recent_Delete now c k :
  disjoint_inv now c -> disjoint_inv now (with_recent c (lru.Delete (recent c) k)).
Proof.
  intros H. apply (inv_shrink now c); simpl; [|auto| |exact H].
  - intros e He. apply In_without in He. tauto.
  - apply NoDup_keys_without, H.
Qed.

Lemma inv_frequent_Set now c k v :
  disjoint_inv now c ->
  (forall e, In e (lru.items (recent c)) -> lru.key e = k -> lru.live now e = false) ->
  disjoint_inv now (with_frequent c (lru.Set_ (frequent c) k v)).
Proof.
  intros (Hnd & Hne & Hap) Hk. repeat split; simpl; [exact Hnd|..].
  - intros e He. apply In_items_put in He as [->|[He _]]; [reflexivity|auto].
  - intros e He Hl Hin. apply In_keys_put in Hin as [Heq|Hin].
    + rewrite (Hk e He Heq) in Hl. discriminate.
    + exact (Hap e He Hl Hin).
Qed.

Lemma inv_recent_put now c k v exp :
  disjoint_inv now c -> ~ In k (lru.keys (frequent c)) ->
  disjoint_inv now (with_recent c (lru.put (recent c) k v exp)).
Proof.
  intros (Hnd & Hne & Hap) Hk. repeat split; simpl; [|exact Hne|].
  - apply NoDup_keys_put, Hnd.
  - intros e He Hl. apply In_items_put in He as [->|[He _]]; [exact Hk|auto].
Qed.

Lemma inv_frequent_Get now c k :
  disjoint_inv now c ->
  disjoint_inv now (with_frequent c (snd (lru.Get now (frequent c) k))).
Proof.
  intros H. apply (inv_shrink now c); simpl; [auto| |apply H|exact H].
  unfold lru.Get, lru.entry_of.
  destruct (List.find _ _) as [e0|] eqn:Hf; [|auto].
  destruct (lru.live now e0); [|auto]. simpl. intros e He.
  apply List.in_app_iff in He as [He|[<-|[]]].
  - apply In_without in He. tauto.
  - apply find_has_key in Hf. tauto.
Qed.

Lemma inv_promote now c k v :
  disjoint_inv now c ->
  disjoint_inv now
    (with_frequent (with_recent c (lru.Delete (recent c) k))
       (lru.Set_ (frequent (with_recent c (lru.Delete (recent c) k))) k v)).
Proof.
  intros H. apply inv_frequent_Set; [apply inv_recent_Delete, H|].
  simpl. intros e He Hk. apply In_without in He. tauto.
Qed.

Lemma inv_Set now c k v : disjoint_inv now c -> disjoint_inv now (Set_ now c k v).
Proof.
  intros H. unfold Set_.
  destruct (lru.Exist now (frequent c) k) eqn:Hf.
  - apply inv_frequent_Set; [exact H|]. intros e He Hk.
    destruct (lru.live now e) eqn:Hl; [exfalso|reflexivity].
    apply Exist_true_In in Hf as (e' & He' & Hk' & _).
    destruct H as (_ & _ & Hap). apply (Hap e He Hl).
    rewrite Hk, <- Hk'. apply List.in_map, He'.
  - destruct (lru.Exist now (recent c) k) eqn:Hr; [apply inv_promote, H|].
    destruct (lru.Exist now (recentEvict c) k).
    + apply inv_frequent_Set.
      * apply inv_with_recentEvict, inv_ensureSpace, H.
      * simpl. intros e He. apply ensureSpace_recent_sub in He.
        apply (Exist_false_not_live now (recent c) k); [apply H|exact Hr|exact He].
    + apply inv_recent_put; [apply inv_ensureSpace, H|].
      intros Hin. apply (Exist_false_absent now (frequent c) k); [apply H|exact Hf|].
      unfold lru.keys in *. apply List.in_map_iff in Hin as (e & <- & He).
      apply List.in_map, (ensureSpace_frequent_sub false), He.
Qed.

Lemma inv_SetWithExpire now c k v t :
  disjoint_inv now c -> disjoint_inv now (SetWithExpire now c k v t).
Proof.
  intros H. unfold SetWithExpire.
  destruct (lru.Exist now (frequent c) k) eqn:Hf.
  - apply inv_frequent_Set; [exact H|]. intros e He Hk.
    destruct (lru.live now e) eqn:Hl; [exfalso|reflexivity].
    apply Exist_true_In in Hf as (e' & He' & Hk' & _).
    destruct H as (_ & _ & Hap). apply (Hap e He Hl).
    rewrite Hk, <- Hk'. apply List.in_map, He'.
  - apply inv_recent_put; [exact H|].
    apply (Exist_false_absent now); [apply H|exact Hf].
Qed.

Lemma inv_Get now c k : disjoint_inv now c -> disjoint_inv now (snd (Get now c k)).
Proof.
  intros H. unfold Get.
  pose proof (inv_frequent_Get now c k H) as Hg.
  destruct (lru.Get now (frequent c) k) as [[val|] f]; [exact Hg|].
  destruct (lru.Peek now (recent c) k) as [val|]; [apply inv_promote, H|exact H].
Qed.

Lemma inv_Delete now c k : disjoint_inv now c -> disjoint_inv now (Delete c k).
Proof.
  intros H. apply (inv_shrink now c); simpl; [| | |exact H].
  - intros e He. apply In_without in He. tauto.
  - intros e He. apply In_without in He. tauto.
  - apply NoDup_keys_without, H.
Qed.

Lemma inv_Clear now c : disjoint_inv now c -> disjoint_inv now (Clear c).
Proof.
  intros H. apply (inv_shrink now c); simpl; [tauto|tauto|constructor|exact H].
Qed.

Lemma inv_step now o c : disjoint_inv now c -> disjoint_inv now (step now o c).
Proof.
  destruct o; simpl; auto using inv_Set, inv_SetWithExpire, inv_Get, inv_Delete, inv_Clear.
Qed.

Lemma inv_wait now now' c : now <= now' -> disjoint_inv now c -> disjoint_inv now' c.
Proof.
  intros Hle (Hnd & Hne & Hap). repeat split; [exact Hnd|exact Hne|].
  intros e He Hl. apply (Hap e He). exact (live_mono now now' e Hle Hl).
Qed.

Lemma inv_New2QParams now sz rr gr c :
  New2QParams sz rr gr = Some c -> disjoint_inv now c.
Proof.
  unfold New2QParams. destruct (sz <=? 0); [discriminate|].
  destruct (_ || _); [discriminate|]. destruct (_ || _); [discriminate|].
  intros [= <-]. repeat split; simpl; [constructor|..]; intros e [].
Qed.

Lemma reachable_inv now c : reachable now c -> disjoint_inv now c.
Proof.
  induction 1 as [sz rr gr c now Hnew|now now' c _ IH Hle|now o c _ IH].
  - exact (inv_New2QParams now sz rr gr c Hnew).
  - exact (inv_wait now now' c Hle IH).
  - exact (inv_step now o c IH).
Qed.

End twoQ_facts.

(** * Facts about the ratio guards of the constructor *)

Lemma SFcompare_finite_refl s m e :
  SFcompare (S754_finite s m e) (S754_finite s m e) = Some Eq.
Proof.
  cbn [SFcompare]. rewrite Z.compare_refl.
  change (PosDef.Pos.compare_cont Eq m m) with (Pos.compare m m).
  rewrite Pos.compare_refl. destruct s; reflexivity.
Qed.

(** The two comparisons of the constructor let a ratio through exactly when
    it lies in the unit interval or is not a number. *)
Lemma ratio_guard_spec (r : float) :
  ((r <? 0)%float || (1 <? r)%float) = false
  <-> in_unit r \/ PrimFloat.is_nan r = true.
Proof.
  unfold in_unit, PrimFloat.is_nan.
  rewrite !FloatAxioms.ltb_spec, !FloatAxioms.leb_spec, FloatAxioms.eqb_spec.
  replace (Prim2SF 0) with (S754_zero false) by (vm_compute; reflexivity).
  replace (Prim2SF 1) with (S754_finite false 4503599627370496 (-52))
    by (vm_compute; reflexivity).
  generalize 4503599627370496%positive (-52). intros m1 e1.
  unfold SFltb, SFleb, SFeqb.
  destruct (Prim2SF r) as [s|s| |s m e].
  - cbn [SFcompare orb negb]. split; [intros _; left; split; reflexivity|reflexivity].
  - destruct s; cbn [SFcompare orb negb].
    + split; [discriminate|]. intros [[H _]|H]; discriminate.
    + split; [discriminate|]. intros [[_ H]|H]; discriminate.
  - cbn [SFcompare orb negb]. split; [intros _; right|]; reflexivity.
  - rewrite SFcompare_finite_refl. cbn [SFcompare]. destruct s; cbn [negb orb].
    + split; [discriminate|]. intros [[H _]|H]; discriminate.
    + rewrite (Z.compare_antisym e e1).
      change (PosDef.Pos.compare_cont Eq m1 m) with (Pos.compare m1 m).
      change (PosDef.Pos.compare_cont Eq m m1) with (Pos.compare m m1).
      rewrite (Pos.compare_antisym m m1).
      destruct (e ?= e1); cbn [CompOpp orb negb].
      * destruct (m ?= m1)%positive; cbn [CompOpp orb negb].
        -- split; [intros _; left; split; reflexivity|reflexivity].
        -- split; [intros _; left; split; reflexivity|reflexivity].
        -- split; [discriminate|]. intros [[_ H]|H]; discriminate.
      * split; [intros _; left; split; reflexivity|reflexivity].
      * split; [discriminate|]. intros [[_ H]|H]; discriminate.
Qed.

(** * The specification, claim by claim *)

Section generic_claims.
Import twoQ.
Context {K V : Type} `{!EqDecision K}.
Implicit Types (c : TwoQueueCache K V) (now : instant).

Lemma entry_of_put {W} (s : lru.LruCache K W) k (v : W) exp :
  In k (lru.keys s) \/ 0 < lru.maxSize s ->
  lru.entry_of (lru.put s k v exp) k = Some (lru.Entry k v exp).
Proof.
  intros Hs. unfold lru.entry_of, lru.put.
  assert (Hlast : List.find (lru.has_key k) [lru.Entry k v exp] = Some (lru.Entry k v exp)).
  { simpl. assert (lru.has_key k (lru.Entry k v exp) = true) as ->; [|reflexivity].
    apply has_key_true. reflexivity. }
  destruct (existsb _ _) eqn:Hex; simpl.
  - rewrite find_app_has_key, find_without_same. exact Hlast.
  - apply existsb_has_key_false in Hex.
    destruct Hs as [Hin|Hpos]; [contradiction|].
    pose proof (proj2 (find_has_key_None k (lru.items s)) Hex) as Hnone.
    unfold lru.trim. destruct (Z.ltb_spec (lru.maxSize s) (Z.of_nat (length (lru.items s ++ [lru.Entry k v exp])))) as [Hlt|Hge].
    + destruct (lru.items s) as [|e0 l] eqn:Hi; simpl in *; [lia|].
      rewrite find_app_has_key. destruct (lru.has_key k e0); [discriminate|].
      rewrite Hnone. exact Hlast.
    + rewrite find_app_has_key, Hnone. exact Hlast.
Qed.

Lemma store_eta {W} (s : lru.LruCache K W) : lru.Store (lru.maxSize s) (lru.items s) = s.
Proof. destruct s; reflexivity. Qed.

(** C3: [ensureSpace] does nothing while [|recent| + |frequent|] is below
    the capacity.  Otherwise, when [recent] is non-empty and either longer
    than [recentSize], or exactly that long on a call that is not a ghost
    re-entry, the oldest entry of [recent] leaves it and only its key is
    set in the ghost store; in every other case the oldest entry of
    [frequent] is dropped and the ghost store is left alone.  A key new to
    the ghost store is appended as its most recent one, and the oldest key
    is dropped when the store was at capacity; a key it already holds is
    moved to the most recent position. *)
Theorem ensureSpace_cases c (isGhostReentry : bool) :
  let recentLen := lru.Len (recent c) in
  let freqLen := lru.Len (frequent c) in
  let from_recent :=
    0 < recentLen
    /\ (recentSize c < recentLen
        \/ (recentLen = recentSize c /\ isGhostReentry = false)) in
  (recentLen + freqLen < size c -> ensureSpace isGhostReentry c = c)
  /\ (size c <= recentLen + freqLen -> from_recent ->
      exists e rest,
        lru.items (recent c) = e :: rest
        /\ ensureSpace isGhostReentry c =
           Cache (size c) (recentSize c)
             (lru.Store (lru.maxSize (recent c)) rest)
             (frequent c)
             (lru.Set_ (recentEvict c) (lru.key e) tt))
  /\ (size c <= recentLen + freqLen -> ~ from_recent ->
      ensureSpace isGhostReentry c =
      Cache (size c) (recentSize c) (recent c)
        (lru.Store (lru.maxSize (frequent c)) (tail (lru.items (frequent c))))
        (recentEvict c))
  /\ (forall (g : lru.LruCache K unit) k,
        let e := lru.Entry k tt None in
        (~ In k (lru.keys g) -> lru.Len g < lru.maxSize g ->
         lru.items (lru.Set_ g k tt) = lru.items g ++ [e])
        /\ (~ In k (lru.keys g) -> lru.maxSize g <= lru.Len g ->
            lru.items (lru.Set_ g k tt) = tail (lru.items g ++ [e]))
        /\ (In k (lru.keys g) ->
            lru.items (lru.Set_ g k tt) = lru.without k (lru.items g) ++ [e])).
Proof.
  cbv zeta. repeat split.
  - intros Hlt. unfold ensureSpace. apply Z.ltb_lt in Hlt. rewrite Hlt. reflexivity.
  - intros Hge (Hpos & Hsz). unfold ensureSpace.
    apply Z.ltb_ge in Hge. rewrite Hge.
    assert (Hcond : (0 <? lru.Len (recent c))
                    && ((recentSize c <? lru.Len (recent c))
                        || ((lru.Len (recent c) =? recentSize c) && negb isGhostReentry))
                    = true).
    { apply andb_true_intro. split; [apply Z.ltb_lt, Hpos|].
      apply Bool.orb_true_iff. destruct Hsz as [Hgt|[Heq ->]].
      - left. apply Z.ltb_lt, Hgt.
      - right. rewrite (proj2 (Z.eqb_eq _ _) Heq). reflexivity. }
    rewrite Hcond. unfold lru.DeleteOldest, lru.Len in *.
    destruct (lru.items (recent c)) as [|e rest]; [simpl in Hpos; lia|].
    exists e, rest. split; reflexivity.
  - intros Hge Hnot. unfold ensureSpace.
    apply Z.ltb_ge in Hge. rewrite Hge.
    assert (Hcond : (0 <? lru.Len (recent c))
                    && ((recentSize c <? lru.Len (recent c))
                        || ((lru.Len (recent c) =? recentSize c) && negb isGhostReentry))
                    = false).
    { destruct (_ && _) eqn:Hc; [exfalso|reflexivity]. apply Hnot.
      apply andb_prop in Hc as [Hp Hs]. split; [apply Z.ltb_lt, Hp|].
      apply Bool.orb_true_iff in Hs as [Hs|Hs]; [left; apply Z.ltb_lt, Hs|right].
      apply andb_prop in Hs as [Hs Hb]. split; [apply Z.eqb_eq, Hs|].
      destruct isGhostReentry; [discriminate|reflexivity]. }
    rewrite Hcond. unfold with_frequent, lru.DeleteOldest.
    destruct (lru.items (frequent c)) as [|e rest] eqn:Hi; simpl; [|reflexivity].
    rewrite <- Hi, store_eta. reflexivity.
  - intros Hk Hlen. unfold lru.Set_, lru.put.
    rewrite (proj2 (existsb_has_key_false k (lru.items g)) Hk). simpl.
    unfold lru.trim, lru.Len in *. rewrite List.length_app. simpl.
    destruct (Z.ltb_spec (lru.maxSize g) (Z.of_nat (length (lru.items g) + 1))); [lia|reflexivity].
  - intros Hk Hlen. unfold lru.Set_, lru.put.
    rewrite (proj2 (existsb_has_key_false k (lru.items g)) Hk). simpl.
    unfold lru.trim, lru.Len in *. rewrite List.length_app. simpl.
    destruct (Z.ltb_spec (lru.maxSize g) (Z.of_nat (length (lru.items g) + 1))); [reflexivity|lia].
  - intros Hk. unfold lru.Set_, lru.put.
    rewrite (proj2 (existsb_has_key k (lru.items g)) Hk). reflexivity.
Qed.

Lemma New2QParams_Some (sz : Z) (rr gr : float) :
  0 < sz ->
  ((rr <? 0)%float || (1 <? rr)%float) = false ->
  ((gr <? 0)%float || (1 <? gr)%float) = false ->
  New2QParams (K:=K) (V:=V) sz rr gr =
  Some (Cache sz
          (int_of_float64 (float64_of_int sz * rr))
          (lru.New sz) (lru.New sz)
          (lru.New (int_of_float64 (float64_of_int sz * gr)))).
Proof.
  intros Hpos Hrr Hgr. unfold New2QParams. rewrite Hrr, Hgr.
  destruct (Z.leb_spec sz 0); [lia|reflexivity].
Qed.

Lemma ratio_guard_number (r : float) :
  PrimFloat.is_nan r = false ->
  ((r <? 0)%float || (1 <? r)%float) = false <-> in_unit r.
Proof.
  intros Hnum. rewrite ratio_guard_spec. rewrite Hnum.
  split; [intros [H|H]; [exact H|discriminate]|auto].
Qed.

(** C7, as amended: for ratios that are numbers, construction with explicit
    parameters returns an instance exactly when the capacity is positive
    and each ratio lies in [0, 1], 0 included for [recentRatio] too. *)
Theorem New2QParams_accepts (sz : Z) (rr gr : float) :
  PrimFloat.is_nan rr = false ->
  PrimFloat.is_nan gr = false ->
  is_Some (New2QParams (K:=K) (V:=V) sz rr gr)
  <-> 0 < sz /\ in_unit rr /\ in_unit gr.
Proof.
  intros Hrr Hgr.
  rewrite <- (ratio_guard_number rr Hrr), <- (ratio_guard_number gr Hgr).
  unfold New2QParams.
  destruct (Z.leb_spec sz 0) as [Hle|Hgt].
  - split; [intros [x Hx]; discriminate|intros (H & _); lia].
  - destruct ((rr <? 0)%float || (1 <? rr)%float).
    + split; [intros [x Hx]; discriminate|intros (_ & H & _); discriminate].
    + destruct ((gr <? 0)%float || (1 <? gr)%float).
      * split; [intros [x Hx]; discriminate|intros (_ & _ & H); discriminate].
      * split; [auto|intros _; eexists; reflexivity].
Qed.

(** C10: [New] returns a nil error for every capacity; a capacity that is
    not positive gives a nil instance next to it, and a positive capacity
    gives an instance. *)
Theorem New_error_is_nil (sz : Z) :
  snd (New (K:=K) (V:=V) sz) = None
  /\ (sz <= 0 -> fst (New (K:=K) (V:=V) sz) = None)
  /\ (0 < sz -> is_Some (fst (New (K:=K) (V:=V) sz))).
Proof.
  repeat split.
  - unfold New, New2QParams. simpl. intros Hle.
    apply Z.leb_le in Hle. rewrite Hle. reflexivity.
  - intros Hpos. unfold New. simpl.
    rewrite (New2QParams_Some sz _ _ Hpos); [eexists; reflexivity|reflexivity..].
Qed.

End generic_claims.

(** * The capacity bound on runs without [SetWithExpire] *)

Section capacity.
Import twoQ.
Context {K V : Type} `{!EqDecision K}.
Implicit Types (c : TwoQueueCache K V) (now : instant).

Lemma Exist_true_keys {W} now (s : lru.LruCache K W) k :
  lru.Exist now s k = true -> In k (lru.keys s).
Proof.
  intros H. apply Exist_true_In in H as (e & He & <- & _).
  apply List.in_map, He.
Qed.

Lemma Len_Delete_le {W} (s : lru.LruCache K W) k : lru.Len (lru.Delete s k) <= lru.Len s.
Proof. unfold lru.Len. simpl. pose proof (length_without k (lru.items s)). lia. Qed.

Lemma Len_Delete_In {W} (s : lru.LruCache K W) k :
  In k (lru.keys s) -> lru.Len (lru.Delete s k) <= lru.Len s - 1.
Proof.
  unfold lru.Len, lru.keys. simpl. intros H.
  pose proof (length_without_In k (lru.items s) H). lia.
Qed.

Lemma Len_put_le {W} (s : lru.LruCache K W) k (v : W) exp :
  lru.Len (lru.put s k v exp) <= lru.Len s + 1.
Proof.
  unfold lru.Len, lru.put. destruct (existsb _ _); simpl.
  - rewrite List.length_app. simpl. pose proof (length_without k (lru.items s)). lia.
  - unfold lru.trim. destruct (_ <? _).
    + destruct (lru.items s); simpl; [lia|]. rewrite List.length_app. simpl. lia.
    + rewrite List.length_app. simpl. lia.
Qed.

Lemma Len_put_In {W} (s : lru.LruCache K W) k (v : W) exp :
  In k (lru.keys s) -> lru.Len (lru.put s k v exp) <= lru.Len s.
Proof.
  intros Hin. unfold lru.Len, lru.put.
  rewrite (proj2 (existsb_has_key k (lru.items s)) Hin). simpl.
  rewrite List.length_app. simpl.
  pose proof (length_without_In k (lru.items s) Hin). lia.
Qed.

Lemma Len_Get_le {W} now (s : lru.LruCache K W) k :
  lru.Len (snd (lru.Get now s k)) <= lru.Len s.
Proof.
  unfold lru.Get, lru.entry_of.
  destruct (List.find _ _) as [e|] eqn:Hf; simpl; [|lia].
  destruct (lru.live now e); simpl; [|lia].
  apply find_has_key in Hf as [He Hk].
  assert (Hin : In k (map lru.key (lru.items s))) by (rewrite <- Hk; apply List.in_map, He).
  unfold lru.Len. simpl. rewrite List.length_app. simpl.
  pose proof (length_without_In k (lru.items s) Hin). lia.
Qed.

Lemma Len_nonneg {W} (s : lru.LruCache K W) : 0 <= lru.Len s.
Proof. unfold lru.Len. lia. Qed.

Lemma ensureSpace_fields b c :
  size (ensureSpace b c) = size c /\ recentSize (ensureSpace b c) = recentSize c.
Proof.
  unfold ensureSpace. destruct (_ <? size c); [tauto|].
  destruct (_ && _); [|tauto].
  destruct (lru.DeleteOldest (recent c)) as [[k|] r]; tauto.
Qed.

Lemma ensureSpace_makes_room sz b c :
  cap_inv sz c -> cap_inv sz (ensureSpace b c) /\ held (ensureSpace b c) < sz.
Proof.
  intros (Hsz & Hpos & Hrs & Hheld).
  pose proof (ensureSpace_fields b c) as [Hf1 Hf2].
  unfold cap_inv. rewrite Hf1, Hf2.
  enough (held (ensureSpace b c) < sz) by (repeat split; lia).
  unfold held in *. unfold ensureSpace.
  pose proof (Len_nonneg (recent c)). pose proof (Len_nonneg (frequent c)).
  destruct (Z.ltb_spec (lru.Len (recent c) + lru.Len (frequent c)) (size c)) as [Hlt|Hge];
    [lia|].
  destruct (_ && _) eqn:Hc.
  - apply andb_prop in Hc as [Hp _]. apply Z.ltb_lt in Hp.
    unfold lru.DeleteOldest, lru.Len in *.
    destruct (lru.items (recent c)) as [|e rest]; simpl in *; [lia|]. lia.
  - assert (Hfreq : 0 < lru.Len (frequent c)).
    { destruct (Z.ltb_spec 0 (lru.Len (recent c))) as [Hp|Hp]; [|lia].
      destruct (Z.ltb_spec (recentSize c) (lru.Len (recent c))) as [Hq|Hq];
        [discriminate|lia]. }
    unfold lru.DeleteOldest, lru.Len in *. simpl.
    destruct (lru.items (frequent c)) as [|e rest]; simpl in *; lia.
Qed.

Lemma cap_inv_promote sz c k v :
  cap_inv sz c -> In k (lru.keys (recent c)) ->
  cap_inv sz
    (with_frequent (with_recent c (lru.Delete (recent c) k))
       (lru.Set_ (frequent (with_recent c (lru.Delete (recent c) k))) k v)).
Proof.
  intros (Hsz & Hpos & Hrs & Hheld) Hin. unfold cap_inv, held in *. simpl.
  pose proof (Len_Delete_In (recent c) k Hin).
  pose proof (Len_put_le (frequent c) k v None).
  unfold lru.Set_. repeat split; lia.
Qed.

Lemma cap_inv_frequent_Set sz c k v :
  cap_inv sz c -> In k (lru.keys (frequent c)) ->
  cap_inv sz (with_frequent c (lru.Set_ (frequent c) k v)).
Proof.
  intros (Hsz & Hpos & Hrs & Hheld) Hin. unfold cap_inv, held in *. simpl.
  pose proof (Len_put_In (frequent c) k v None Hin).
  unfold lru.Set_. repeat split; lia.
Qed.

Lemma cap_inv_Set sz now c k v : cap_inv sz c -> cap_inv sz (Set_ now c k v).
Proof.
  intros H. unfold Set_.
  destruct (lru.Exist now (frequent c) k) eqn:Hf.
  - apply cap_inv_frequent_Set; [exact H|]. exact (Exist_true_keys _ _ _ Hf).
  - destruct (lru.Exist now (recent c) k) eqn:Hr.
    + apply cap_inv_promote; [exact H|]. exact (Exist_true_keys _ _ _ Hr).
    + destruct (lru.Exist now (recentEvict c) k).
      * destruct (ensureSpace_makes_room sz true c H) as [(Hsz & Hpos & Hrs & _) Hroom].
        unfold cap_inv, held in *. simpl.
        pose proof (Len_put_le (frequent (ensureSpace true c)) k v None).
        unfold lru.Set_. repeat split; lia.
      * destruct (ensureSpace_makes_room sz false c H) as [(Hsz & Hpos & Hrs & _) Hroom].
        unfold cap_inv, held in *. simpl.
        pose proof (Len_put_le (recent (ensureSpace false c)) k v None).
        unfold lru.Set_. repeat split; lia.
Qed.

Lemma cap_inv_Get sz now c k : cap_inv sz c -> cap_inv sz (snd (Get now c k)).
Proof.
  intros H. unfold Get.
  pose proof (Len_Get_le now (frequent c) k) as Hg.
  destruct (lru.Get now (frequent c) k) as [[val|] f]; simpl in *.
  - destruct H as (Hsz & Hpos & Hrs & Hheld). unfold cap_inv, held in *. simpl.
    repeat split; lia.
  - unfold lru.Peek, lru.entry_of.
    destruct (List.find _ _) as [e|] eqn:Hf; [|exact H].
    destruct (lru.live now e); [|exact H]. simpl.
    apply cap_inv_promote; [exact H|].
    apply find_has_key in Hf as [He <-]. apply List.in_map, He.
Qed.

Lemma cap_inv_Delete sz c k : cap_inv sz c -> cap_inv sz (Delete c k).
Proof.
  intros (Hsz & Hpos & Hrs & Hheld). unfold cap_inv, held in *. simpl.
  pose proof (Len_Delete_le (recent c) k). pose proof (Len_Delete_le (frequent c) k).
  repeat split; lia.
Qed.

Lemma cap_inv_Clear sz c : cap_inv sz c -> cap_inv sz (Clear c).
Proof.
  intros (Hsz & Hpos & Hrs & Hheld). unfold cap_inv, held in *. simpl.
  unfold lru.Len. simpl. repeat split; lia.
Qed.

Lemma cap_inv_step sz now o c : plain o -> cap_inv sz c -> cap_inv sz (step now o c).
Proof.
  destruct o; simpl; intros Hp H; [apply cap_inv_Set|contradiction|apply cap_inv_Get|
    apply cap_inv_Delete|apply cap_inv_Clear]; exact H.
Qed.

(** Every run of [Set], [Get], [Delete] and [Clear] on a cache whose target
    for [recent] is below its capacity keeps [|recent| + |frequent|] within
    the capacity after each operation. *)
Lemma capacity_bound_plain_runs sz c (tr : list (instant * op K V)) :
  cap_inv sz c -> Forall (fun p => plain (snd p)) tr -> cap_inv sz (run c tr).
Proof.
  intros Hc Htr. revert c Hc.
  induction Htr as [|[now o] tr Ho _ IH]; intros c Hc; simpl; [exact Hc|].
  apply IH, cap_inv_step; assumption.
Qed.

Lemma cap_inv_New2QParams sz rr gr c :
  New2QParams sz rr gr = Some c -> recentSize c < sz -> cap_inv sz c.
Proof.
  unfold New2QParams. destruct (Z.leb_spec sz 0) as [|Hpos]; [discriminate|].
  destruct (_ || _); [discriminate|]. destruct (_ || _); [discriminate|].
  intros [= <-]. simpl. intros Hrs. unfold cap_inv, held. simpl.
  unfold lru.Len. simpl. repeat split; lia.
Qed.

Lemma ensureSpace_capacities b c :
  lru.maxSize (recent (ensureSpace b c)) = lru.maxSize (recent c)
  /\ lru.maxSize (frequent (ensureSpace b c)) = lru.maxSize (frequent c).
Proof.
  unfold ensureSpace. destruct (_ <? size c); [tauto|].
  destruct (_ && _).
  - unfold lru.DeleteOldest. destruct (lru.items (recent c)); simpl; tauto.
  - unfold lru.DeleteOldest. destruct (lru.items (frequent c)); simpl; tauto.
Qed.

Lemma maxSize_put {W} (s : lru.LruCache K W) k (v : W) exp :
  lru.maxSize (lru.put s k v exp) = lru.maxSize s.
Proof. unfold lru.put. destruct (existsb _ _); reflexivity. Qed.

Lemma step_recent_capacity now o c :
  lru.maxSize (recent (step now o c)) = lru.maxSize (recent c).
Proof.
  destruct o as [k v|k v t|k|k|]; simpl; [| | |reflexivity..].
  - unfold Set_. destruct (lru.Exist now (frequent c) k); [reflexivity|].
    destruct (lru.Exist now (recent c) k); [reflexivity|].
    destruct (lru.Exist now (recentEvict c) k); simpl.
    + apply ensureSpace_capacities.
    + unfold lru.Set_. rewrite maxSize_put. apply ensureSpace_capacities.
  - unfold SetWithExpire. destruct (lru.Exist now (frequent c) k); simpl;
      [reflexivity|]. apply maxSize_put.
  - unfold Get. destruct (lru.Get now (frequent c) k) as [[val|] f]; [reflexivity|].
    destruct (lru.Peek now (recent c) k); reflexivity.
Qed.

(** In every reachable state [recent] has a positive capacity. *)
Lemma reachable_recent_capacity now c :
  reachable now c -> 0 < lru.maxSize (recent c).
Proof.
  induction 1 as [sz rr gr c now Hnew|now now' c _ IH Hle|now o c _ IH].
  - revert Hnew. unfold New2QParams.
    destruct (Z.leb_spec sz 0); [discriminate|].
    destruct (_ || _); [discriminate|]. destruct (_ || _); [discriminate|].
    intros [= <-]. simpl. lia.
  - exact IH.
  - rewrite step_recent_capacity. exact IH.
Qed.

(** Every run in which the clock never goes back ends in a reachable
    state. *)
Lemma run_reachable now c (tr : list (instant * op K V)) :
  reachable now c -> clock_ok now tr -> reachable (end_of now tr) (run c tr).
Proof.
  revert now c. induction tr as [|[t o] tr IH]; intros now c Hc Hok; simpl; [exact Hc|].
  destruct Hok as [Hle Hok]. apply IH; [|exact Hok].
  apply reach_step. exact (reach_wait now t c Hc Hle).
Qed.

End capacity.

Section state_claims.
Import twoQ.
Context {K V : Type} `{!EqDecision K}.
Implicit Types (c : TwoQueueCache K V) (now : instant).


(** C8: [SetWithExpire] on a key that [frequent] holds overwrites the value
    there, with no expiry attached, and leaves [recent] alone.  On any
    other key it puts the entry, with the given expiry, into [recent]
    through the store's own insertion and leaves [frequent] alone.  In both
    cases the ghost store is neither changed nor consulted: the outcome is
    the same whatever the ghost store holds. *)
Theorem SetWithExpire_routes now c (key : K) (value : V) (expiry : instant) :
  0 < lru.maxSize (recent c) ->
  let c' := SetWithExpire now c key value expiry in
  (lru.Exist now (frequent c) key = true ->
     frequent c' = lru.Set_ (frequent c) key value
     /\ lru.entry_of (frequent c') key = Some (lru.Entry key value None)
     /\ recent c' = recent c)
  /\ (lru.Exist now (frequent c) key = false ->
     recent c' = lru.SetWithExpire (recent c) key value expiry
     /\ lru.entry_of (recent c') key = Some (lru.Entry key value (Some expiry))
     /\ frequent c' = frequent c)
  /\ recentEvict c' = recentEvict c
  /\ (forall g : lru.LruCache K unit,
        SetWithExpire now (with_recentEvict c g) key value expiry
        = with_recentEvict c' g).
Proof.
  intros Hcap. cbv zeta. unfold SetWithExpire.
  split; [|split; [|split]].
  - intros Hf. rewrite Hf. simpl. split; [reflexivity|]. split; [|reflexivity].
    unfold lru.Set_. apply entry_of_put. left. exact (Exist_true_keys _ _ _ Hf).
  - intros Hf. rewrite Hf. simpl. split; [reflexivity|]. split; [|reflexivity].
    unfold lru.SetWithExpire. apply entry_of_put. right. exact Hcap.
  - destruct (lru.Exist now (frequent c) key); reflexivity.
  - intros g. simpl. destruct (lru.Exist now (frequent c) key); reflexivity.
Qed.

(** C9: after [Delete] the key is in none of the three stores, so [Get]
    misses it at any instant and changes nothing; [Delete] of a key that
    none of the three stores holds returns the cache unchanged.  This holds
    in every state, reachable or not. *)
Theorem Delete_removes_everywhere now c (key : K) :
  let c' := Delete c key in
  lru.entry_of (recent c') key = None
  /\ lru.entry_of (frequent c') key = None
  /\ lru.entry_of (recentEvict c') key = None
  /\ Get now c' key = (None, c')
  /\ (lru.entry_of (recent c) key = None ->
      lru.entry_of (frequent c) key = None ->
      lru.entry_of (recentEvict c) key = None ->
      Delete c key = c).
Proof.
  cbv zeta.
  assert (Hr : lru.entry_of (recent (Delete c key)) key = None)
    by apply find_without_same.
  assert (Hf : lru.entry_of (frequent (Delete c key)) key = None)
    by apply find_without_same.
  split; [exact Hr|]. split; [exact Hf|]. split; [apply find_without_same|]. split.
  - unfold Get, lru.Get, lru.Peek. rewrite Hf, Hr. reflexivity.
  - unfold lru.entry_of. rewrite !find_has_key_None. intros H1 H2 H3.
    unfold Delete, lru.Delete. simpl.
    rewrite !without_keep by assumption. rewrite !store_eta.
    destruct c; reflexivity.
Qed.

End state_claims.

(** * The scenarios of the specification, on the test's cache *)

(** C4: with capacity 4 and the default ratios, [recentSize] is 1 and the
    ghost store holds 2 keys.  Setting keys 1 to 5 in order evicts key 1
    from [recent] into the ghost store inside the fifth [Set], before key 5
    is inserted; a following [Set] of key 1 finds it in the ghost store and
    places it in [frequent], not in [recent]. *)
Theorem scan_resistance (now : instant) (v : string) :
  let c0 := scenario.fresh 4 in
  let c4 := scenario.set_all now c0 (firstn 4 scenario.entries) in
  let c4' := twoQ.ensureSpace false c4 in
  let c5 := scenario.after_sets now in
  let c6 := twoQ.Set_ now c5 "1" v in
  fst (twoQ.New 4) = Some c0
  /\ twoQ.recentSize c0 = 1
  /\ lru.maxSize (twoQ.recentEvict c0) = 2
  /\ view c4 = (["1"; "2"; "3"; "4"], [], [])
  /\ view c4' = (["2"; "3"; "4"], [], ["1"])
  /\ c5 = twoQ.with_recent c4' (lru.Set_ (twoQ.recent c4') "5" "five")
  /\ view c5 = (["2"; "3"; "4"; "5"], [], ["1"])
  /\ lru.Exist now (twoQ.recentEvict c5) "1" = true
  /\ lru.Exist now (twoQ.frequent c6) "1" = true
  /\ lru.Exist now (twoQ.recent c6) "1" = false
  /\ view c6 = (["3"; "4"; "5"], ["1"], ["2"]).
Proof. cbv zeta. vm_compute. repeat split. Qed.

(** C5, as amended: in the literal scenario with capacity 4, after the five
    [Set] calls key 1 is only in the ghost store, so [Get] of key 1 misses
    and promotes nothing; the two [Get] calls on key 2 promote key 2 alone.
    Then [Get] of key 5 returns "five" (and promotes key 5); [Set] of key 6
    evicts key 3 from [recent] into the ghost store, so [Get] of key 3
    misses; and [Get] of key 2 still returns "two". *)
Theorem literal_scenario (now : instant) :
  let c5 := scenario.after_sets now in
  let c8 := scenario.after_gets now in
  let r5 := twoQ.Get now c8 "5" in
  let c10 := scenario.after_six now in
  let r3 := twoQ.Get now c10 "3" in
  let r2 := twoQ.Get now (snd r3) "2" in
  twoQ.Get now c5 "1" = (None, c5)
  /\ view c8 = (["3"; "4"; "5"], ["2"], ["1"])
  /\ fst r5 = Some "five"
  /\ view (snd r5) = (["3"; "4"], ["2"; "5"], ["1"])
  /\ view c10 = (["4"; "6"], ["2"; "5"], ["1"; "3"])
  /\ r3 = (None, c10)
  /\ fst r2 = Some "two".
Proof. cbv zeta. vm_compute. repeat split. Qed.

(** C5, the claim as stated fails: after [Get] of keys 1, 2 and 2, key 1 is
    not in [frequent]; its [Get] returned nothing. *)
Lemma literal_scenario_key1_not_promoted :
  fst (twoQ.Get 0 (scenario.after_sets 0) "1") = None
  /\ lru.Exist 0 (twoQ.frequent (scenario.after_gets 0)) "1" = false
  /\ lru.Exist 0 (twoQ.frequent (scenario.after_gets 0)) "2" = true.
Proof. vm_compute. repeat split. Qed.

(** C7, the claim as stated fails: a [recentRatio] of 0, which is not above
    0, is accepted and yields an instance whose target for [recent] is 0. *)
Lemma New2QParams_zero_recentRatio :
  (0 <? 0)%float = false
  /\ twoQ.New2QParams (K:=string) (V:=string) 4 0 0.5
     = Some (twoQ.Cache 4 0 (lru.New 4) (lru.New 4) (lru.New 2)).
Proof. split; reflexivity. Qed.


(** C1, where the code exceeds the capacity.  With capacity 4, four keys
    set and read once fill [frequent]; [SetWithExpire] of a fifth key then
    inserts into [recent] without making room, and five entries are held.
    With [recentRatio] 1 and capacity 2, setting keys a, b, c and a again
    re-admits a from the ghost store while [recent] is exactly at its
    target and [frequent] is empty: nothing is evicted and three entries
    are held. *)
Theorem capacity_exceeded :
  (let c := scenario.four_hot 0 in
   let c' := twoQ.SetWithExpire 0 c "5" "five" 3600 in
   view c = ([], ["1"; "2"; "3"; "4"], [])
   /\ twoQ.size c' = 4
   /\ view c' = (["5"], ["1"; "2"; "3"; "4"], [])
   /\ held c' = 5)
  /\ (let c := scenario.set_all 0 (twoQ.Cache 2 2 (lru.New 2) (lru.New 2) (lru.New 2))
                 [("a", "1"); ("b", "2"); ("c", "3"); ("a", "4")] in
      twoQ.New2QParams (K:=string) (V:=string) 2 1 1
      = Some (twoQ.Cache 2 2 (lru.New 2) (lru.New 2) (lru.New 2))
      /\ twoQ.size c = 2
      /\ view c = (["b"; "c"], ["a"], [])
      /\ held c = 3).
Proof. cbv zeta. vm_compute. repeat split. Qed.

(** C6, where the code keeps a key in the ghost store and in [frequent] at
    once.  After the five [Set] calls key 1 is in the ghost store;
    [SetWithExpire] puts it into [recent] without looking at the ghost
    store, and the next [Get] promotes it to [frequent] while the ghost
    store still holds it. *)
Theorem ghost_and_frequent_overlap :
  let c5 := scenario.after_sets 0 in
  let c6 := twoQ.SetWithExpire 0 c5 "1" "uno" 3600 in
  let r := twoQ.Get 0 c6 "1" in
  view c5 = (["2"; "3"; "4"; "5"], [], ["1"])
  /\ view c6 = (["3"; "4"; "5"; "1"], [], ["1"])
  /\ fst r = Some "uno"
  /\ view (snd r) = (["3"; "4"; "5"], ["1"], ["1"])
  /\ lru.Exist 0 (twoQ.recentEvict (snd r)) "1" = true
  /\ lru.Exist 0 (twoQ.frequent (snd r)) "1" = true.
Proof. cbv zeta. vm_compute. repeat split. Qed.

(** * The theorems above at concrete inputs *)


(** C3 on the empty cache (nothing to do), on the cache with four keys in
    [recent] (eviction from [recent]) and on the cache with four keys in
    [frequent] under a ghost re-entry (eviction from [frequent]). *)
Lemma ensureSpace_cases_witness :
  twoQ.ensureSpace false (scenario.fresh 4) = scenario.fresh 4
  /\ (exists e rest,
        lru.items (twoQ.recent (scenario.set_all 0 (scenario.fresh 4) (firstn 4 scenario.entries)))
        = e :: rest
        /\ twoQ.ensureSpace false (scenario.set_all 0 (scenario.fresh 4) (firstn 4 scenario.entries))
           = twoQ.Cache 4 1 (lru.Store 4 rest) (lru.New 4)
               (lru.Set_ (lru.New 2) (lru.key e) tt))
  /\ twoQ.ensureSpace true (scenario.four_hot 0)
     = twoQ.Cache 4 1 (lru.New 4)
         (lru.Store 4 (tail (lru.items (twoQ.frequent (scenario.four_hot 0)))))
         (lru.New 2).
Proof.
  split; [|split].
  - destruct (ensureSpace_cases (scenario.fresh 4) false) as (H & _).
    apply H. vm_compute. reflexivity.
  - destruct (ensureSpace_cases
                (scenario.set_all 0 (scenario.fresh 4) (firstn 4 scenario.entries)) false)
      as (_ & H & _).
    apply H.
    + vm_compute. discriminate.
    + split; [vm_compute; reflexivity|]. left. vm_compute. reflexivity.
  - destruct (ensureSpace_cases (scenario.four_hot 0) true) as (_ & _ & H & _).
    apply H.
    + vm_compute. discriminate.
    + intros [H0 _]. vm_compute in H0. discriminate.
Defined.

(** C8 on key 1 while only the ghost store holds it. *)
Lemma SetWithExpire_routes_witness :
  let c := scenario.after_sets 0 in
  let c' := twoQ.SetWithExpire 0 c "1" "uno" 3600 in
  0 < lru.maxSize (twoQ.recent c)
  /\ lru.Exist 0 (twoQ.recentEvict c) "1" = true
  /\ lru.entry_of (twoQ.recent c') "1" = Some (lru.Entry "1" "uno" (Some 3600))
  /\ twoQ.frequent c' = twoQ.frequent c
  /\ twoQ.recentEvict c' = twoQ.recentEvict c.
Proof.
  cbv zeta.
  destruct (SetWithExpire_routes 0 (scenario.after_sets 0) "1" "uno" 3600)
    as (_ & H & Hg & _); [vm_compute; reflexivity|].
  destruct H as (_ & Hr & Hf); [vm_compute; reflexivity|].
  split; [vm_compute; reflexivity|]. split; [vm_compute; reflexivity|].
  split; [exact Hr|]. split; [exact Hf|exact Hg].
Defined.

(** C9 on a key held by [recent] and on a key held by no store. *)
Lemma Delete_removes_everywhere_witness :
  twoQ.Get 7 (twoQ.Delete (scenario.after_sets 0) "2") "2"
  = (None, twoQ.Delete (scenario.after_sets 0) "2")
  /\ twoQ.Delete (scenario.after_sets 0) "9" = scenario.after_sets 0.
Proof.
  split.
  - apply (Delete_removes_everywhere 7 (scenario.after_sets 0) "2").
  - apply (Delete_removes_everywhere 7 (scenario.after_sets 0) "9"); vm_compute; reflexivity.
Defined.

(** C10 at capacities 0, -3 and 4. *)
Lemma New_error_is_nil_witness :
  snd (twoQ.New (K:=string) (V:=string) 0) = None
  /\ fst (twoQ.New (K:=string) (V:=string) (-3)) = None
  /\ is_Some (fst (twoQ.New (K:=string) (V:=string) 4)).
Proof.
  split; [|split].
  - apply (New_error_is_nil (K:=string) (V:=string) 0).
  - apply (New_error_is_nil (K:=string) (V:=string) (-3)). lia.
  - apply (New_error_is_nil (K:=string) (V:=string) 4). lia.
Defined.

(** * Further properties of the cache *)

Section shape_facts.
Import twoQ.
Context {K V : Type} `{!EqDecision K}.
Implicit Types (c : TwoQueueCache K V) (now : instant).

Lemma shape_ensureSpace b c : shape (ensureSpace b c) = shape c.
Proof.
  unfold ensureSpace, shape. destruct (_ <? size c); [reflexivity|].
  destruct (_ && _).
  - unfold lru.DeleteOldest. destruct (lru.items (recent c)); simpl; [reflexivity|].
    unfold lru.Set_. rewrite maxSize_put. reflexivity.
  - unfold lru.DeleteOldest. destruct (lru.items (frequent c)); reflexivity.
Qed.

Lemma shape_fields c c' :
  shape c' = shape c ->
  size c' = size c /\ recentSize c' = recentSize c
  /\ lru.maxSize (recent c') = lru.maxSize (recent c)
  /\ lru.maxSize (frequent c') = lru.maxSize (frequent c)
  /\ lru.maxSize (recentEvict c') = lru.maxSize (recentEvict c).
Proof. unfold shape. intros [= -> -> -> -> ->]. repeat split. Qed.

Lemma maxSize_Get {W} now (s : lru.LruCache K W) k :
  lru.maxSize (snd (lru.Get now s k)) = lru.maxSize s.
Proof.
  unfold lru.Get. destruct (lru.entry_of s k) as [e|]; [|reflexivity].
  destruct (lru.live now e); reflexivity.
Qed.

Lemma shape_Set now c k v : shape (Set_ now c k v) = shape c.
Proof.
  unfold Set_. destruct (lru.Exist now (frequent c) k).
  { unfold shape. simpl. unfold lru.Set_. rewrite maxSize_put. reflexivity. }
  destruct (lru.Exist now (recent c) k).
  { unfold shape. simpl. unfold lru.Set_. rewrite maxSize_put. reflexivity. }
  pose proof (shape_fields c _ (shape_ensureSpace true c)) as (H1 & H2 & H3 & H4 & H5).
  pose proof (shape_fields c _ (shape_ensureSpace false c)) as (G1 & G2 & G3 & G4 & G5).
  destruct (lru.Exist now (recentEvict c) k); unfold shape; simpl;
    unfold lru.Set_; rewrite maxSize_put; congruence.
Qed.

Lemma shape_step now o c : shape (step now o c) = shape c.
Proof.
  destruct o as [k v|k v t|k|k|]; simpl; [apply shape_Set| | |reflexivity..].
  - unfold SetWithExpire. destruct (lru.Exist now (frequent c) k); unfold shape; simpl.
    + unfold lru.Set_. rewrite maxSize_put. reflexivity.
    + unfold lru.SetWithExpire. rewrite maxSize_put. reflexivity.
  - unfold Get. pose proof (maxSize_Get now (frequent c) k) as Hg.
    destruct (lru.Get now (frequent c) k) as [[val|] f]; simpl in Hg.
    + unfold shape. simpl. rewrite Hg. reflexivity.
    + destruct (lru.Peek now (recent c) k); [|reflexivity].
      unfold shape. simpl. unfold lru.Set_. rewrite maxSize_put. reflexivity.
Qed.

Lemma shape_run c (tr : list (instant * op K V)) : shape (run c tr) = shape c.
Proof.
  revert c. induction tr as [|[now o] tr IH]; intros c; simpl; [reflexivity|].
  rewrite IH. apply shape_step.
Qed.

Lemma New2QParams_fresh sz rr gr c :
  New2QParams sz rr gr = Some c ->
  0 < sz
  /\ exists rs es, c = Cache sz rs (lru.New sz) (lru.New sz) (lru.New es).
Proof.
  unfold New2QParams. destruct (Z.leb_spec sz 0); [discriminate|].
  destruct (_ || _); [discriminate|]. destruct (_ || _); [discriminate|].
  intros [= <-]. split; [assumption|]. eexists _, _. reflexivity.
Qed.

(** The capacities of a reachable cache are those of its construction:
    [recent] and [frequent] can each hold [size] entries, and [size] is
    positive. *)
Lemma reachable_capacities now c :
  reachable now c ->
  0 < size c
  /\ lru.maxSize (recent c) = size c
  /\ lru.maxSize (frequent c) = size c.
Proof.
  induction 1 as [sz rr gr c now Hnew|now now' c _ IH Hle|now o c _ IH].
  - apply New2QParams_fresh in Hnew as (Hpos & rs & es & ->). simpl.
    repeat split; assumption.
  - exact IH.
  - pose proof (shape_fields c _ (shape_step now o c)) as (H1 & _ & H3 & H4 & _).
    rewrite H1, H3, H4. exact IH.
Qed.

(** X12: [Clear] takes a cache back to the state in which it was
    constructed, whatever operations ran before, and in that state every
    [Get] misses and changes nothing. *)
Theorem Clear_resets sz rr gr c0 (tr : list (instant * op K V)) :
  New2QParams sz rr gr = Some c0 ->
  Clear (run c0 tr) = c0
  /\ (forall now k, Get now (Clear (run c0 tr)) k = (None, c0)).
Proof.
  intros Hnew.
  assert (Hclear : Clear (run c0 tr) = c0).
  { pose proof (shape_fields c0 _ (shape_run c0 tr)) as (H1 & H2 & H3 & H4 & H5).
    apply New2QParams_fresh in Hnew as (_ & rs & es & Hc0).
    unfold Clear, lru.Clear, with_recentEvict, with_frequent, with_recent. simpl.
    rewrite H1, H2, H3, H4, H5. subst c0. reflexivity. }
  split; [exact Hclear|]. intros now k. rewrite Hclear.
  apply New2QParams_fresh in Hnew as (_ & rs & es & ->). reflexivity.
Qed.

End shape_facts.

Section growth_facts.
Import twoQ.
Context {K V : Type} `{!EqDecision K}.
Implicit Types (c : TwoQueueCache K V) (now : instant).

Lemma Forall_firstn {A} (P : A -> Prop) (l : list A) n :
  Forall P l -> Forall P (firstn n l).
Proof.
  intros H. revert n. induction H as [|x l Hx _ IH]; intros [|n]; simpl;
    constructor; auto.
Qed.

(** X1: on a cache constructed with a target for [recent] below its
    capacity, after each operation of any run of [Set], [Get], [Delete] and
    [Clear] the two value-holding stores together hold at most [size]
    entries. *)
Theorem capacity_bound_constructed sz rr gr c0 (tr : list (instant * op K V)) :
  New2QParams sz rr gr = Some c0 ->
  recentSize c0 < sz ->
  Forall (fun p => plain (snd p)) tr ->
  forall n, held (run c0 (firstn n tr)) <= sz.
Proof.
  intros Hnew Hrs Htr n.
  pose proof (cap_inv_New2QParams sz rr gr c0 Hnew Hrs) as Hc.
  pose proof (capacity_bound_plain_runs sz c0 (firstn n tr) Hc
                (Forall_firstn _ tr n Htr)) as (_ & _ & _ & H).
  exact H.
Qed.

Lemma held_ensureSpace_bounds b c :
  held c - 1 <= held (ensureSpace b c) <= held c.
Proof.
  unfold held, ensureSpace. destruct (_ <? size c); [lia|].
  destruct (_ && _).
  - unfold lru.DeleteOldest, lru.Len.
    destruct (lru.items (recent c)) as [|e rest] eqn:Hi; simpl.
    + rewrite Hi. simpl. lia.
    + rewrite Nat2Z.inj_succ. lia.
  - unfold lru.DeleteOldest, lru.Len.
    destruct (lru.items (frequent c)) as [|e rest] eqn:Hi; simpl.
    + rewrite Hi. simpl. lia.
    + rewrite Nat2Z.inj_succ. lia.
Qed.

(** X2: [ensureSpace] never adds a value-holding entry and removes at most
    one; on a cache that holds at most [size] entries and whose target for
    [recent] is below a positive [size], there is room for one more entry
    afterwards. *)
Theorem ensureSpace_makes_room_for_one b c :
  0 < size c -> recentSize c < size c -> held c <= size c ->
  held c - 1 <= held (ensureSpace b c) <= held c
  /\ held (ensureSpace b c) < size c.
Proof.
  intros Hpos Hrs Hheld. split; [apply held_ensureSpace_bounds|].
  apply (ensureSpace_makes_room (size c) b c). repeat split; assumption.
Qed.

(** X3: [Get] leaves the ghost store alone, never adds to the number of
    entries held, and on a miss leaves the whole cache as it was (a miss is
    not remembered anywhere). *)
Theorem Get_is_frugal now c k :
  recentEvict (snd (Get now c k)) = recentEvict c
  /\ held (snd (Get now c k)) <= held c
  /\ (fst (Get now c k) = None -> snd (Get now c k) = c).
Proof.
  unfold Get.
  pose proof (Len_Get_le now (frequent c) k) as Hlen.
  destruct (lru.Get now (frequent c) k) as [[val|] f]; simpl in Hlen.
  - simpl. split; [reflexivity|]. split; [unfold held; simpl; lia|discriminate].
  - unfold lru.Peek, lru.entry_of.
    destruct (List.find _ _) as [e|] eqn:Hf;
      [|split; [reflexivity|split; [apply Z.le_refl|reflexivity]]].
    destruct (lru.live now e);
      [|split; [reflexivity|split; [apply Z.le_refl|reflexivity]]].
    simpl. split; [reflexivity|]. split; [|discriminate].
    apply find_has_key in Hf as [He Hk].
    assert (Hin : In k (lru.keys (recent c))) by (rewrite <- Hk; apply List.in_map, He).
    pose proof (Len_Delete_In (recent c) k Hin).
    pose proof (Len_put_le (frequent c) k (lru.value e) None).
    unfold held, lru.Set_. simpl. lia.
Qed.

End growth_facts.

Section read_facts.
Import twoQ.
Context {K V : Type} `{!EqDecision K}.
Implicit Types (c : TwoQueueCache K V) (now : instant).

(** What [Get] returns: the live value of [frequent], else the live value
    of [recent]. *)
Lemma Get_value now c k :
  fst (Get now c k) =
  match lru.Peek now (frequent c) k with
  | Some v => Some v
  | None => lru.Peek now (recent c) k
  end.
Proof.
  unfold Get, lru.Get, lru.Peek.
  destruct (lru.entry_of (frequent c) k) as [e|].
  - destruct (lru.live now e); [reflexivity|].
    destruct (lru.entry_of (recent c) k) as [e'|]; [|reflexivity].
    destruct (lru.live now e'); reflexivity.
  - destruct (lru.entry_of (recent c) k) as [e'|]; [|reflexivity].
    destruct (lru.live now e'); reflexivity.
Qed.

Lemma Peek_put_plain {W} now (s : lru.LruCache K W) k (v : W) :
  In k (lru.keys s) \/ 0 < lru.maxSize s ->
  lru.Peek now (lru.Set_ s k v) k = Some v.
Proof.
  intros H. unfold lru.Peek, lru.Set_. rewrite (entry_of_put s k v None H).
  reflexivity.
Qed.

Lemma Peek_absent {W} now (s : lru.LruCache K W) k :
  ~ In k (lru.keys s) -> lru.Peek now s k = None.
Proof.
  intros H. unfold lru.Peek, lru.entry_of.
  apply find_has_key_None in H. rewrite H. reflexivity.
Qed.

Lemma ensureSpace_frequent_absent b c k :
  ~ In k (lru.keys (frequent c)) -> ~ In k (lru.keys (frequent (ensureSpace b c))).
Proof.
  intros Hk Hin. apply Hk. unfold lru.keys in *.
  apply List.in_map_iff in Hin as (e & <- & He).
  apply List.in_map, (ensureSpace_frequent_sub b), He.
Qed.

Lemma ensureSpace_recent_no_live now b c k :
  List.NoDup (lru.keys (recent c)) -> lru.Exist now (recent c) k = false ->
  lru.Exist now (recent (ensureSpace b c)) k = false.
Proof.
  intros Hnd Hex. destruct (lru.Exist now (recent (ensureSpace b c)) k) eqn:H;
    [exfalso|reflexivity].
  apply Exist_true_In in H as (e & He & Hk & Hl).
  apply ensureSpace_recent_sub in He.
  rewrite (Exist_false_not_live now (recent c) k Hnd Hex e He Hk) in Hl. discriminate.
Qed.

(** X4: in every reachable state, [Set] followed by [Get] of the same key
    returns the value just set, at whatever instant the [Get] runs. *)
Theorem Set_then_Get now c k (v : V) :
  reachable now c ->
  forall now', fst (Get now' (Set_ now c k v) k) = Some v.
Proof.
  intros Hreach now'.
  pose proof (reachable_capacities now c Hreach) as (Hpos & Hrc & Hfc).
  apply reachable_inv in Hreach as (Hnd & Hne & Hap).
  rewrite Get_value. unfold Set_.
  destruct (lru.Exist now (frequent c) k) eqn:Hf.
  { simpl. rewrite Peek_put_plain; [reflexivity|].
    left. exact (Exist_true_keys _ _ _ Hf). }
  destruct (lru.Exist now (recent c) k) eqn:Hr.
  { simpl. rewrite Peek_put_plain; [reflexivity|]. right. lia. }
  destruct (lru.Exist now (recentEvict c) k) eqn:Hg; simpl.
  - pose proof (shape_fields c _ (shape_ensureSpace true c)) as (_ & _ & _ & H4 & _).
    rewrite Peek_put_plain; [reflexivity|]. right. lia.
  - pose proof (shape_fields c _ (shape_ensureSpace false c)) as (_ & _ & H3 & _ & _).
    rewrite Peek_absent.
    + apply Peek_put_plain. right. lia.
    + apply ensureSpace_frequent_absent.
      exact (Exist_false_absent now (frequent c) k Hne Hf).
Qed.

(** X5: in every reachable state, after [SetWithExpire] a [Get] of the key
    returns the value at every instant when [frequent] held the key (that
    path attaches no expiry); otherwise it returns the value before the
    expiry and misses from the expiry on. *)
Theorem SetWithExpire_then_Get now c k (v : V) (t : instant) :
  reachable now c ->
  forall now',
    fst (Get now' (SetWithExpire now c k v t) k) =
    if lru.Exist now (frequent c) k then Some v
    else if now' <? t then Some v else None.
Proof.
  intros Hreach now'.
  pose proof (reachable_capacities now c Hreach) as (Hpos & Hrc & Hfc).
  apply reachable_inv in Hreach as (Hnd & Hne & Hap).
  rewrite Get_value. unfold SetWithExpire.
  destruct (lru.Exist now (frequent c) k) eqn:Hf; simpl.
  - rewrite Peek_put_plain; [reflexivity|].
    left. exact (Exist_true_keys _ _ _ Hf).
  - rewrite Peek_absent by exact (Exist_false_absent now (frequent c) k Hne Hf).
    unfold lru.Peek, lru.SetWithExpire.
    rewrite (entry_of_put (recent c) k v (Some t)) by (right; lia).
    unfold lru.live. simpl. destruct (now' <? t); reflexivity.
Qed.

(** X6: in every reachable state, a [Get] that finds the key in [recent]
    returns its value and moves the entry to [frequent] without its
    expiry: from then on [Get] returns the value at every instant, also
    past the expiry the entry had in [recent]. *)
Theorem Get_promotes_for_good now c k (v : V) :
  reachable now c ->
  lru.Exist now (frequent c) k = false ->
  lru.Peek now (recent c) k = Some v ->
  let c' := snd (Get now c k) in
  fst (Get now c k) = Some v
  /\ lru.entry_of (recent c') k = None
  /\ lru.entry_of (frequent c') k = Some (lru.Entry k v None)
  /\ (forall now', fst (Get now' c' k) = Some v).
Proof.
  intros Hreach Hf Hp.
  pose proof (reachable_capacities now c Hreach) as (Hpos & Hrc & Hfc).
  apply reachable_inv in Hreach as (Hnd & Hne & Hap).
  pose proof (Exist_false_absent now (frequent c) k Hne Hf) as Habs.
  assert (Hget : Get now c k =
                 (Some v, with_frequent (with_recent c (lru.Delete (recent c) k))
                            (lru.Set_ (frequent c) k v))).
  { unfold Get, lru.Get, lru.entry_of.
    rewrite (proj2 (find_has_key_None k (lru.items (frequent c))) Habs).
    rewrite Hp. reflexivity. }
  cbv zeta. rewrite Hget. simpl.
  split; [reflexivity|]. split; [apply find_without_same|].
  assert (He : lru.entry_of (lru.Set_ (frequent c) k v) k = Some (lru.Entry k v None))
    by (apply entry_of_put; right; lia).
  split; [exact He|]. intros now'. rewrite Get_value. simpl.
  unfold lru.Peek at 1. rewrite He. reflexivity.
Qed.

(** X7: in every reachable state, [Set] admits the key to [frequent]
    exactly when one of the three stores already knew it (it was present
    in [frequent], in [recent] or in the ghost store), and to [recent]
    otherwise; afterwards it is present in exactly one of the two. *)
Theorem Set_admission now c k (v : V) :
  reachable now c ->
  let seen := lru.Exist now (frequent c) k || lru.Exist now (recent c) k
              || lru.Exist now (recentEvict c) k in
  let c' := Set_ now c k v in
  lru.Exist now (frequent c') k = seen
  /\ lru.Exist now (recent c') k = negb seen.
Proof.
  intros Hreach.
  pose proof (reachable_capacities now c Hreach) as (Hpos & Hrc & Hfc).
  apply reachable_inv in Hreach as (Hnd & Hne & Hap).
  assert (Hput : forall (s : lru.LruCache K V),
             In k (lru.keys s) \/ 0 < lru.maxSize s ->
             lru.Exist now (lru.Set_ s k v) k = true).
  { intros s Hs. unfold lru.Exist, lru.Set_. rewrite (entry_of_put s k v None Hs).
    reflexivity. }
  cbv zeta. unfold Set_.
  destruct (lru.Exist now (frequent c) k) eqn:Hf; simpl.
  { split; [apply Hput; left; exact (Exist_true_keys _ _ _ Hf)|].
    destruct (lru.Exist now (recent c) k) eqn:Hr; [exfalso|reflexivity].
    apply Exist_true_In in Hr as (e & He & Hk & Hl).
    apply (Hap e He Hl). rewrite Hk. exact (Exist_true_keys _ _ _ Hf). }
  destruct (lru.Exist now (recent c) k) eqn:Hr; simpl.
  { split; [apply Hput; right; lia|].
    apply Exist_absent. unfold lru.keys. simpl. rewrite In_keys_without. tauto. }
  destruct (lru.Exist now (recentEvict c) k) eqn:Hg; simpl.
  - pose proof (shape_fields c _ (shape_ensureSpace true c)) as (_ & _ & _ & H4 & _).
    split; [apply Hput; right; lia|].
    apply ensureSpace_recent_no_live; assumption.
  - pose proof (shape_fields c _ (shape_ensureSpace false c)) as (_ & _ & H3 & _ & _).
    split; [|apply Hput; right; lia].
    apply Exist_absent, ensureSpace_frequent_absent.
    exact (Exist_false_absent now (frequent c) k Hne Hf).
Qed.

End read_facts.

Section ghost_facts.
Import twoQ.
Context {K V : Type} `{!EqDecision K}.
Implicit Types (c : TwoQueueCache K V) (now : instant).

Lemma In_keys_items {W} (s s' : lru.LruCache K W) :
  (forall e, In e (lru.items s') -> In e (lru.items s)) ->
  forall k, In k (lru.keys s') -> In k (lru.keys s).
Proof.
  intros Hsub k Hin. unfold lru.keys in *.
  apply List.in_map_iff in Hin as (e & <- & He). apply List.in_map, Hsub, He.
Qed.

(** The keys of the ghost store after [ensureSpace] were in it before or
    come from [recent]. *)
Lemma ensureSpace_ghost_keys b c k :
  In k (lru.keys (recentEvict (ensureSpace b c))) ->
  In k (lru.keys (recentEvict c)) \/ In k (lru.keys (recent c)).
Proof.
  unfold ensureSpace. destruct (_ <? size c); [auto|].
  destruct (_ && _); [|auto].
  unfold lru.DeleteOldest. destruct (lru.items (recent c)) as [|e rest] eqn:Hi; [auto|].
  simpl. intros Hin. apply In_keys_put in Hin as [->|Hin]; [right|left; exact Hin].
  unfold lru.keys. rewrite Hi. simpl. left. reflexivity.
Qed.

Lemma ensureSpace_recent_keys b c k :
  In k (lru.keys (recent (ensureSpace b c))) -> In k (lru.keys (recent c)).
Proof. apply In_keys_items. apply ensureSpace_recent_sub. Qed.

Lemma plain_inv_shrink c c' :
  (forall e, In e (lru.items (recent c')) -> In e (lru.items (recent c))) ->
  (forall e, In e (lru.items (frequent c')) -> In e (lru.items (frequent c))) ->
  (forall e, In e (lru.items (recentEvict c')) -> In e (lru.items (recentEvict c))) ->
  List.NoDup (lru.keys (recent c')) ->
  plain_inv c -> plain_inv c'.
Proof.
  intros Hr Hf Hg Hnd (_ & Her & Hef & Heg & Hrf & Hgh).
  pose proof (In_keys_items _ _ Hr) as Kr.
  pose proof (In_keys_items _ _ Hf) as Kf.
  pose proof (In_keys_items _ _ Hg) as Kg.
  split; [exact Hnd|]. split; [intros e He; apply Her, Hr, He|].
  split; [intros e He; apply Hef, Hf, He|].
  split; [intros e He; apply Heg, Hg, He|].
  split.
  - intros k Hk Hk'. exact (Hrf k (Kr k Hk) (Kf k Hk')).
  - intros k Hk. destruct (Hgh k (Kg k Hk)) as [H1 H2].
    split; [intros H; apply H1, Kr, H|intros H; apply H2, Kf, H].
Qed.

Lemma plain_inv_ensureSpace b c : plain_inv c -> plain_inv (ensureSpace b c).
Proof.
  intros H. pose proof H as (Hnd & Her & Hef & Heg & Hrf & Hgh).
  unfold ensureSpace. destruct (_ <? size c); [exact H|].
  destruct (_ && _).
  - unfold lru.DeleteOldest.
    destruct (lru.items (recent c)) as [|e rest] eqn:Hi.
    { apply (plain_inv_shrink c); simpl; auto. }
    assert (Hkeys : lru.keys (recent c) = lru.key e :: map lru.key rest)
      by (unfold lru.keys; rewrite Hi; reflexivity).
    rewrite Hkeys in Hnd. apply List.NoDup_cons_iff in Hnd as [Hnin Hnd].
    assert (Hsub : forall k, In k (map lru.key rest) -> In k (lru.keys (recent c)))
      by (intros k Hk; rewrite Hkeys; right; exact Hk).
    split; [exact Hnd|].
    split; [intros e' He'; apply Her; rewrite Hi; right; exact He'|].
    split; [exact Hef|].
    split.
    { intros e' He'. simpl in He'. apply In_items_put in He' as [->|[He' _]];
        [reflexivity|apply Heg, He']. }
    split.
    + simpl. intros k Hk. apply Hrf, Hsub, Hk.
    + simpl. intros k Hk. apply In_keys_put in Hk as [->|Hk].
      * split; [exact Hnin|]. apply Hrf. rewrite Hkeys. left. reflexivity.
      * destruct (Hgh k Hk) as [H1 H2]. split; [|exact H2].
        intros Hin. apply H1, Hsub, Hin.
  - apply (plain_inv_shrink c); simpl; auto.
    unfold lru.DeleteOldest. destruct (lru.items (frequent c)) as [|e rest] eqn:Hi; simpl.
    + rewrite Hi. auto.
    + intros e' He'. right. exact He'.
Qed.

Lemma plain_inv_frequent_Set c k v :
  plain_inv c -> ~ In k (lru.keys (recent c)) -> ~ In k (lru.keys (recentEvict c)) ->
  plain_inv (with_frequent c (lru.Set_ (frequent c) k v)).
Proof.
  intros (Hnd & Her & Hef & Heg & Hrf & Hgh) Hr Hg.
  split; [exact Hnd|]. split; [exact Her|].
  split.
  { simpl. intros e He. apply In_items_put in He as [->|[He _]]; [reflexivity|auto]. }
  split; [exact Heg|]. simpl. split.
  - intros k' Hk' Hin. apply In_keys_put in Hin as [->|Hin]; [tauto|].
    exact (Hrf k' Hk' Hin).
  - intros k' Hk'. destruct (Hgh k' Hk') as [H1 H2]. split; [exact H1|].
    intros Hin. apply In_keys_put in Hin as [->|Hin]; tauto.
Qed.

Lemma plain_inv_recent_Set c k v :
  plain_inv c -> ~ In k (lru.keys (frequent c)) -> ~ In k (lru.keys (recentEvict c)) ->
  plain_inv (with_recent c (lru.Set_ (recent c) k v)).
Proof.
  intros (Hnd & Her & Hef & Heg & Hrf & Hgh) Hf Hg.
  split; [apply NoDup_keys_put, Hnd|].
  split.
  { simpl. intros e He. apply In_items_put in He as [->|[He _]]; [reflexivity|auto]. }
  split; [exact Hef|]. split; [exact Heg|]. simpl. split.
  - intros k' Hk'. apply In_keys_put in Hk' as [->|Hk']; [exact Hf|auto].
  - intros k' Hk'. destruct (Hgh k' Hk') as [H1 H2]. split; [|exact H2].
    intros Hin. apply In_keys_put in Hin as [->|Hin]; tauto.
Qed.

Lemma plain_inv_recent_Delete c k :
  plain_inv c -> plain_inv (with_recent c (lru.Delete (recent c) k)).
Proof.
  intros H. apply (plain_inv_shrink c); simpl; auto.
  - intros e He. apply In_without in He. tauto.
  - apply NoDup_keys_without, H.
Qed.

Lemma plain_inv_promote c k v :
  plain_inv c -> In k (lru.keys (recent c)) ->
  plain_inv (with_frequent (with_recent c (lru.Delete (recent c) k))
               (lru.Set_ (frequent (with_recent c (lru.Delete (recent c) k))) k v)).
Proof.
  intros H Hin. apply plain_inv_frequent_Set.
  - apply plain_inv_recent_Delete, H.
  - simpl. unfold lru.keys. simpl. rewrite In_keys_without. tauto.
  - simpl. intros Hg. destruct H as (_ & _ & _ & _ & _ & Hgh).
    destruct (Hgh k Hg) as [H1 _]. exact (H1 Hin).
Qed.

Lemma plain_inv_Set now c k v : plain_inv c -> plain_inv (Set_ now c k v).
Proof.
  intros H. pose proof H as (Hnd & Her & Hef & Heg & Hrf & Hgh). unfold Set_.
  destruct (lru.Exist now (frequent c) k) eqn:Hf.
  { apply Exist_true_keys in Hf. apply plain_inv_frequent_Set; [exact H| |].
    - intros Hr. exact (Hrf k Hr Hf).
    - intros Hg. destruct (Hgh k Hg) as [_ H2]. exact (H2 Hf). }
  destruct (lru.Exist now (recent c) k) eqn:Hr.
  { apply plain_inv_promote; [exact H|]. exact (Exist_true_keys _ _ _ Hr). }
  pose proof (Exist_false_absent now _ k Hef Hf) as Haf.
  pose proof (Exist_false_absent now _ k Her Hr) as Har.
  destruct (lru.Exist now (recentEvict c) k) eqn:Hg.
  - apply plain_inv_frequent_Set.
    + apply (plain_inv_shrink (ensureSpace true c)); simpl; auto.
      * intros e He. apply In_without in He. tauto.
      * apply plain_inv_ensureSpace, H.
      * apply plain_inv_ensureSpace, H.
    + simpl. intros Hin. apply Har, (ensureSpace_recent_keys true), Hin.
    + simpl. unfold lru.keys. simpl. rewrite In_keys_without. tauto.
  - pose proof (Exist_false_absent now _ k Heg Hg) as Hag.
    apply plain_inv_recent_Set; [apply plain_inv_ensureSpace, H| |].
    + apply (ensureSpace_frequent_absent false). exact Haf.
    + intros Hin. apply ensureSpace_ghost_keys in Hin. tauto.
Qed.

Lemma plain_inv_Get now c k : plain_inv c -> plain_inv (snd (Get now c k)).
Proof.
  intros H. unfold Get.
  assert (Hg : plain_inv (with_frequent c (snd (lru.Get now (frequent c) k)))).
  { apply (plain_inv_shrink c); simpl; auto; [|apply H].
    unfold lru.Get, lru.entry_of.
    destruct (List.find _ _) as [e0|] eqn:Hf; [|auto].
    destruct (lru.live now e0); [|auto]. simpl. intros e He.
    apply List.in_app_iff in He as [He|[<-|[]]].
    - apply In_without in He. tauto.
    - apply find_has_key in Hf. tauto. }
  destruct (lru.Get now (frequent c) k) as [[val|] f]; [exact Hg|].
  unfold lru.Peek, lru.entry_of.
  destruct (List.find _ _) as [e|] eqn:Hf; [|exact H].
  destruct (lru.live now e); [|exact H].
  apply plain_inv_promote; [exact H|].
  apply find_has_key in Hf as [He <-]. apply List.in_map, He.
Qed.

Lemma plain_inv_step now o c : plain o -> plain_inv c -> plain_inv (step now o c).
Proof.
  destruct o as [k v|k v t|k|k|]; simpl; intros Hp H;
    [apply plain_inv_Set, H|contradiction|apply plain_inv_Get, H| |].
  - apply (plain_inv_shrink c); simpl; auto;
      try (intros e He; apply In_without in He; tauto).
    apply NoDup_keys_without, H.
  - apply (plain_inv_shrink c); simpl; auto; try tauto. constructor.
Qed.

Lemma plain_inv_run c (tr : list (instant * op K V)) :
  plain_inv c -> Forall (fun p => plain (snd p)) tr -> plain_inv (run c tr).
Proof.
  intros Hc Htr. revert c Hc.
  induction Htr as [|[now o] tr Ho _ IH]; intros c Hc; simpl; [exact Hc|].
  apply IH, plain_inv_step; assumption.
Qed.

Lemma plain_inv_New2QParams sz rr gr c :
  New2QParams sz rr gr = Some c -> plain_inv c.
Proof.
  intros H. apply New2QParams_fresh in H as (_ & rs & es & ->).
  unfold plain_inv, no_expiry. simpl.
  split; [constructor|]. repeat split; intros; contradiction.
Qed.

(** X8: after any run of [Set], [Get], [Delete] and [Clear] on a constructed
    cache, a key held by the ghost store is held by neither [recent] nor
    [frequent], and a key held by [recent] is not held by [frequent]: each
    key is stored in at most one of the three stores. *)
Theorem stores_pairwise_disjoint sz rr gr c0 (tr : list (instant * op K V)) k :
  New2QParams sz rr gr = Some c0 ->
  Forall (fun p => plain (snd p)) tr ->
  let c := run c0 tr in
  (In k (lru.keys (recentEvict c)) ->
     ~ In k (lru.keys (recent c)) /\ ~ In k (lru.keys (frequent c)))
  /\ (In k (lru.keys (recent c)) -> ~ In k (lru.keys (frequent c))).
Proof.
  intros Hnew Htr.
  pose proof (plain_inv_run c0 tr (plain_inv_New2QParams _ _ _ _ Hnew) Htr)
    as (_ & _ & _ & _ & Hrf & Hgh).
  cbv zeta. split; [apply Hgh|apply Hrf].
Qed.

End ghost_facts.

Section scan_facts.
Import twoQ.
Context {K V : Type} `{!EqDecision K}.
Implicit Types (c : TwoQueueCache K V) (now : instant).

Lemma unknown_Exist now c k :
  unknown k c ->
  lru.Exist now (frequent c) k = false
  /\ lru.Exist now (recent c) k = false
  /\ lru.Exist now (recentEvict c) k = false.
Proof. intros (Hr & Hf & Hg). repeat split; apply Exist_absent; assumption. Qed.

(** While [frequent] leaves room for the target of [recent], making room
    for a new key never takes from [frequent]. *)
Lemma ensureSpace_spares_frequent c :
  lru.Len (frequent c) < size c ->
  lru.Len (frequent c) + recentSize c < size c ->
  frequent (ensureSpace false c) = frequent c.
Proof.
  intros Hlt Hrs. unfold ensureSpace.
  destruct (Z.ltb_spec (lru.Len (recent c) + lru.Len (frequent c)) (size c)) as [|Hfull];
    [reflexivity|].
  assert (Hcond : (0 <? lru.Len (recent c))
                  && ((recentSize c <? lru.Len (recent c))
                      || ((lru.Len (recent c) =? recentSize c) && negb false)) = true).
  { apply andb_true_intro. split; [apply Z.ltb_lt; lia|].
    apply Bool.orb_true_iff. left. apply Z.ltb_lt. lia. }
  rewrite Hcond. destruct (lru.DeleteOldest (recent c)) as [[k|] r]; reflexivity.
Qed.

Lemma Set_unknown now c k v :
  unknown k c ->
  lru.Len (frequent c) < size c ->
  lru.Len (frequent c) + recentSize c < size c ->
  frequent (Set_ now c k v) = frequent c
  /\ (forall k', In k' (lru.keys (recent (Set_ now c k v))) ->
                 k' = k \/ In k' (lru.keys (recent c)))
  /\ (forall k', In k' (lru.keys (recentEvict (Set_ now c k v))) ->
                 In k' (lru.keys (recentEvict c)) \/ In k' (lru.keys (recent c))).
Proof.
  intros Hu Hlt Hrs. destruct (unknown_Exist now c k Hu) as (Hf & Hr & Hg).
  unfold Set_. rewrite Hf, Hr, Hg. simpl.
  split; [apply ensureSpace_spares_frequent; assumption|]. split.
  - intros k' Hk'. apply In_keys_put in Hk' as [->|Hk']; [left; reflexivity|right].
    exact (ensureSpace_recent_keys false c k' Hk').
  - intros k'. apply ensureSpace_ghost_keys.
Qed.

(** X9: scan resistance.  While [frequent] holds fewer than [size] entries
    and leaves room for the target of [recent], setting any number of
    distinct keys that the cache does not know leaves [frequent] exactly
    as it was: a scan only cycles through [recent]. *)
Theorem scan_spares_frequent now c (kvs : list (K * V)) :
  lru.Len (frequent c) < size c ->
  lru.Len (frequent c) + recentSize c < size c ->
  List.NoDup (map fst kvs) ->
  (forall k, In k (map fst kvs) -> unknown k c) ->
  frequent (set_each now c kvs) = frequent c.
Proof.
  revert c. induction kvs as [|[k v] kvs IH]; intros c Hlt Hrs Hnd Hun; [reflexivity|].
  simpl in Hnd. apply List.NoDup_cons_iff in Hnd as [Hnin Hnd].
  destruct (Set_unknown now c k v (Hun k (or_introl eq_refl)) Hlt Hrs)
    as (Hf & Hr & Hg).
  pose proof (shape_fields c _ (shape_Set now c k v)) as (H1 & H2 & _).
  change (frequent (set_each now (Set_ now c k v) kvs) = frequent c).
  rewrite <- Hf. apply IH; [rewrite Hf, H1; exact Hlt|rewrite Hf, H1, H2; exact Hrs|
                            exact Hnd|].
  intros k' Hk'. destruct (Hun k' (or_intror Hk')) as (Ur & Uf & Ug).
  assert (k' <> k) by (intros ->; exact (Hnin Hk')).
  repeat split.
  - intros Hin. apply Hr in Hin. tauto.
  - rewrite Hf. exact Uf.
  - intros Hin. apply Hg in Hin. tauto.
Qed.

(** X10: [Delete] also erases what the ghost store remembers: a key that is
    deleted and set again starts over in [recent], whichever store held it
    before, and is in neither [frequent] nor the ghost store. *)
Theorem Delete_then_Set_starts_over now c k (v : V) :
  0 < lru.maxSize (recent c) ->
  let c' := Set_ now (Delete c k) k v in
  lru.entry_of (recent c') k = Some (lru.Entry k v None)
  /\ lru.entry_of (frequent c') k = None
  /\ lru.entry_of (recentEvict c') k = None.
Proof.
  intros Hcap. cbv zeta.
  assert (Hu : unknown k (Delete c k)).
  { unfold unknown, lru.keys. simpl. rewrite !In_keys_without. tauto. }
  destruct (unknown_Exist now _ k Hu) as (Hf & Hr & Hg).
  destruct Hu as (Ur & Uf & Ug).
  unfold Set_. rewrite Hf, Hr, Hg.
  pose proof (shape_fields _ _ (shape_ensureSpace false (Delete c k)))
    as (_ & _ & H3 & _ & _).
  simpl in H3. simpl. split; [|split].
  - unfold lru.Set_. apply entry_of_put. right. rewrite H3. exact Hcap.
  - apply find_has_key_None. apply (ensureSpace_frequent_absent false). exact Uf.
  - apply find_has_key_None. intros Hin. apply ensureSpace_ghost_keys in Hin. tauto.
Qed.

End scan_facts.

Section resident_facts.
Import twoQ.
Context {K V : Type} `{!EqDecision K}.
Implicit Types (c : TwoQueueCache K V) (now : instant).

Lemma keys_put_exact {W} (s : lru.LruCache K W) k (v : W) exp k' :
  In k (lru.keys s) \/ lru.Len s < lru.maxSize s ->
  In k' (lru.keys (lru.put s k v exp)) <-> k' = k \/ In k' (lru.keys s).
Proof.
  intros Hs. unfold lru.keys, lru.put.
  destruct (existsb _ _) eqn:Hex; simpl.
  - apply existsb_has_key in Hex. rewrite List.map_app, List.in_app_iff, In_keys_without.
    simpl. split; [intros [[H _]|[<-|[]]]; auto|].
    intros [->|H]; [auto|]. destruct (decide (k' = k)) as [->|Hne]; auto.
  - apply existsb_has_key_false in Hex. destruct Hs as [Hin|Hlen]; [contradiction|].
    unfold lru.trim, lru.Len in *. rewrite List.length_app. simpl.
    destruct (Z.ltb_spec (lru.maxSize s) (Z.of_nat (length (lru.items s) + 1))); [lia|].
    rewrite List.map_app, List.in_app_iff. simpl. intuition auto.
Qed.

Lemma keys_Get_touch {W} now (s : lru.LruCache K W) k k' :
  In k' (lru.keys (snd (lru.Get now s k))) <-> In k' (lru.keys s).
Proof.
  unfold lru.Get, lru.entry_of.
  destruct (List.find _ _) as [e|] eqn:Hf; [|reflexivity].
  destruct (lru.live now e); [|reflexivity].
  apply find_has_key in Hf as [He Hk]. unfold lru.keys. simpl.
  rewrite List.map_app, List.in_app_iff, In_keys_without. simpl. split.
  - intros [[H _]|[<-|[]]]; [exact H|]. apply List.in_map, He.
  - intros H. destruct (decide (k' = k)) as [->|Hne]; [right; left; exact Hk|auto].
Qed.

Lemma Len_pos_In {W} (s : lru.LruCache K W) k : In k (lru.keys s) -> 0 < lru.Len s.
Proof.
  unfold lru.keys, lru.Len. destruct (lru.items s); simpl; [tauto|lia].
Qed.

Lemma resident_promote c k v k' :
  In k (lru.keys (recent c)) ->
  held c <= lru.maxSize (frequent c) ->
  resident k'
    (with_frequent (with_recent c (lru.Delete (recent c) k))
       (lru.Set_ (frequent (with_recent c (lru.Delete (recent c) k))) k v))
  <-> resident k' c.
Proof.
  intros Hin Hheld. pose proof (Len_pos_In _ _ Hin) as Hpos.
  unfold resident. simpl. unfold lru.Set_.
  rewrite keys_put_exact by (right; unfold held in Hheld; lia).
  unfold lru.keys at 1. simpl. rewrite In_keys_without. split.
  - intros [[H _]|[->|H]]; auto.
  - intros [H|H]; [|auto]. destruct (decide (k' = k)) as [->|Hne]; auto.
Qed.

Lemma In_keys_Exist {W} now (s : lru.LruCache K W) k :
  no_expiry s -> In k (lru.keys s) -> lru.Exist now s k = true.
Proof.
  intros Hne Hin. unfold lru.Exist, lru.entry_of.
  destruct (List.find _ _) as [e|] eqn:Hf.
  - apply find_has_key in Hf as [He _]. unfold lru.live. rewrite (Hne e He). reflexivity.
  - apply find_has_key_None in Hf. contradiction.
Qed.

(** X11: after any run of [Set], [Get], [Delete] and [Clear] on a cache
    constructed with a target for [recent] below its capacity, a [Get] of
    any key and a [Set] of a key whose value the cache holds evict
    nothing: the keys held by [recent] or [frequent] are the same before
    and after. *)
Theorem resident_access_evicts_nothing sz rr gr c0 (tr : list (instant * op K V))
    now k (v : V) k' :
  New2QParams sz rr gr = Some c0 ->
  recentSize c0 < sz ->
  Forall (fun p => plain (snd p)) tr ->
  let c := run c0 tr in
  (resident k' (snd (Get now c k)) <-> resident k' c)
  /\ (resident k c -> (resident k' (Set_ now c k v) <-> resident k' c)).
Proof.
  intros Hnew Hrs Htr. cbv zeta. set (c := run c0 tr).
  pose proof (plain_inv_run c0 tr (plain_inv_New2QParams _ _ _ _ Hnew) Htr)
    as (Hnd & Her & Hef & Heg & Hrf & Hgh).
  pose proof (capacity_bound_plain_runs sz c0 tr
                (cap_inv_New2QParams sz rr gr c0 Hnew Hrs) Htr) as (Hsz & _ & _ & Hheld).
  pose proof (shape_fields c0 _ (shape_run c0 tr)) as (_ & _ & _ & H4 & _).
  assert (Hcap : held c <= lru.maxSize (frequent c)).
  { unfold c. rewrite H4. apply New2QParams_fresh in Hnew as (_ & rs & es & ->).
    simpl. exact Hheld. }
  fold c in Hnd, Her, Hef, Hrf. split.
  - unfold Get. pose proof (keys_Get_touch now (frequent c) k k') as Ht.
    destruct (lru.Get now (frequent c) k) as [[val|] f]; simpl in Ht.
    + unfold resident. simpl. rewrite Ht. reflexivity.
    + unfold lru.Peek, lru.entry_of.
      destruct (List.find _ _) as [e|] eqn:Hf; [|reflexivity].
      destruct (lru.live now e); [|reflexivity]. simpl.
      apply find_has_key in Hf as [He Hk].
      apply resident_promote; [|exact Hcap].
      rewrite <- Hk. apply List.in_map, He.
  - intros [Hr|Hf]; unfold Set_.
    + rewrite (Exist_absent now (frequent c) k (Hrf k Hr)).
      rewrite (In_keys_Exist now (recent c) k Her Hr).
      apply resident_promote; assumption.
    + rewrite (In_keys_Exist now (frequent c) k Hef Hf).
      unfold resident. simpl. unfold lru.Set_.
      rewrite keys_put_exact by (left; exact Hf).
      split; [intros [H|[->|H]]; auto|intros [H|H]; auto].
Qed.

End resident_facts.

(** * The further properties at concrete inputs *)

Lemma mixed_run_plain : Forall (fun p => plain (snd p)) scenario.mixed_run.
Proof. repeat constructor. Qed.

Lemma sets_run_plain : Forall (fun p => plain (snd p)) scenario.sets_run.
Proof. repeat constructor. Qed.

Lemma mixed_run_reachable :
  twoQ.reachable 4 (twoQ.run (scenario.fresh 4) scenario.mixed_run).
Proof.
  apply (run_reachable 0 (scenario.fresh 4) scenario.mixed_run).
  - apply (twoQ.reach_new 4 0.25 0.5). reflexivity.
  - simpl. lia.
Defined.

Lemma sets_run_reachable :
  twoQ.reachable 0 (twoQ.run (scenario.fresh 4) scenario.sets_run).
Proof.
  apply (run_reachable 0 (scenario.fresh 4) scenario.sets_run).
  - apply (twoQ.reach_new 4 0.25 0.5). reflexivity.
  - simpl. lia.
Defined.

(** X1 on the mixed run, after each of its ten operations. *)
Lemma capacity_bound_constructed_witness :
  forallb (fun n => held (twoQ.run (scenario.fresh 4) (firstn n scenario.mixed_run)) <=? 4)
          (seq 0 11) = true.
Proof.
  apply List.forallb_forall. intros n _. apply Z.leb_le.
  apply (capacity_bound_constructed 4 0.25 0.5 (scenario.fresh 4) scenario.mixed_run).
  - reflexivity.
  - vm_compute. reflexivity.
  - exact mixed_run_plain.
Defined.

(** X2 on the cache whose [frequent] holds four keys. *)
Lemma ensureSpace_makes_room_for_one_witness :
  held (scenario.four_hot 0) - 1 <= held (twoQ.ensureSpace true (scenario.four_hot 0))
    <= held (scenario.four_hot 0)
  /\ held (twoQ.ensureSpace true (scenario.four_hot 0)) < twoQ.size (scenario.four_hot 0).
Proof.
  apply (ensureSpace_makes_room_for_one true (scenario.four_hot 0)).
  - vm_compute. reflexivity.
  - vm_compute. reflexivity.
  - vm_compute. discriminate.
Defined.

(** X4 after the mixed run, with the [Get] long after the [Set]. *)
Lemma Set_then_Get_witness :
  fst (twoQ.Get 99
         (twoQ.Set_ 4 (twoQ.run (scenario.fresh 4) scenario.mixed_run) "7" "seven") "7")
  = Some "seven".
Proof.
  apply (Set_then_Get 4 (twoQ.run (scenario.fresh 4) scenario.mixed_run) "7" "seven").
  exact mixed_run_reachable.
Defined.

(** X5 after the mixed run: a key new to [frequent] is read just before
    its expiry and misses at the expiry. *)
Lemma SetWithExpire_then_Get_witness :
  fst (twoQ.Get 9
         (twoQ.SetWithExpire 4 (twoQ.run (scenario.fresh 4) scenario.mixed_run)
            "7" "seven" 10) "7") = Some "seven"
  /\ fst (twoQ.Get 10
            (twoQ.SetWithExpire 4 (twoQ.run (scenario.fresh 4) scenario.mixed_run)
               "7" "seven" 10) "7") = None.
Proof.
  split.
  - rewrite (SetWithExpire_then_Get 4 _ "7" "seven" 10 mixed_run_reachable 9).
    reflexivity.
  - rewrite (SetWithExpire_then_Get 4 _ "7" "seven" 10 mixed_run_reachable 10).
    reflexivity.
Defined.

(** X6: a key set with expiry 10, read at instant 5, is still returned at
    instant 100. *)
Lemma Get_promotes_for_good_witness :
  fst (twoQ.Get 100
         (snd (twoQ.Get 5 (twoQ.SetWithExpire 0 (scenario.fresh 4) "a" "alpha" 10) "a"))
         "a") = Some "alpha".
Proof.
  destruct (Get_promotes_for_good 5
              (twoQ.SetWithExpire 0 (scenario.fresh 4) "a" "alpha" 10) "a" "alpha")
    as (_ & _ & _ & H).
  - apply (twoQ.reach_wait 0 5); [|lia].
    apply (twoQ.reach_step 0 (twoQ.OpSetWithExpire "a" "alpha" 10)).
    apply (twoQ.reach_new 4 0.25 0.5). reflexivity.
  - reflexivity.
  - reflexivity.
  - apply H.
Defined.

(** X7 on key 1, which only the ghost store holds after the five [Set]
    calls, and on key 7, which no store knows. *)
Lemma Set_admission_witness :
  (lru.Exist 0 (twoQ.frequent
      (twoQ.Set_ 0 (twoQ.run (scenario.fresh 4) scenario.sets_run) "1" "uno")) "1" = true
   /\ lru.Exist 0 (twoQ.recent
        (twoQ.Set_ 0 (twoQ.run (scenario.fresh 4) scenario.sets_run) "1" "uno")) "1" = false)
  /\ (lru.Exist 0 (twoQ.frequent
         (twoQ.Set_ 0 (twoQ.run (scenario.fresh 4) scenario.sets_run) "7" "seven")) "7" = false
      /\ lru.Exist 0 (twoQ.recent
           (twoQ.Set_ 0 (twoQ.run (scenario.fresh 4) scenario.sets_run) "7" "seven")) "7" = true).
Proof.
  split.
  - exact (Set_admission 0 _ "1" "uno" sets_run_reachable).
  - exact (Set_admission 0 _ "7" "seven" sets_run_reachable).
Defined.

(** X8 after the mixed run, on key 3, which the ghost store holds. *)
Lemma stores_pairwise_disjoint_witness :
  In "3" (lru.keys (twoQ.recentEvict (twoQ.run (scenario.fresh 4) scenario.mixed_run)))
  /\ ~ In "3" (lru.keys (twoQ.recent (twoQ.run (scenario.fresh 4) scenario.mixed_run)))
  /\ ~ In "3" (lru.keys (twoQ.frequent (twoQ.run (scenario.fresh 4) scenario.mixed_run))).
Proof.
  assert (H : In "3" (lru.keys (twoQ.recentEvict
                (twoQ.run (scenario.fresh 4) scenario.mixed_run))))
    by (vm_compute; left; reflexivity).
  split; [exact H|].
  destruct (stores_pairwise_disjoint 4 0.25 0.5 (scenario.fresh 4) scenario.mixed_run
              "3" eq_refl mixed_run_plain) as [Hg _].
  exact (Hg H).
Defined.

(** X9: the five keys of the test scanned over a cache whose [frequent]
    holds one key. *)
Lemma scan_spares_frequent_witness :
  twoQ.frequent (set_each 0 scenario.warm scenario.entries)
  = twoQ.frequent scenario.warm.
Proof.
  apply (scan_spares_frequent 0 scenario.warm scenario.entries).
  - vm_compute. reflexivity.
  - vm_compute. reflexivity.
  - simpl. repeat (apply List.NoDup_cons;
                   [simpl; intros H; decompose [or] H; try discriminate; assumption|]).
    apply List.NoDup_nil.
  - intros k Hk. simpl in Hk.
    destruct Hk as [<-|[<-|[<-|[<-|[<-|[]]]]]]; vm_compute;
      repeat split; intros H; decompose [or] H; try discriminate; assumption.
Defined.

(** X10 on key 1 while the ghost store holds it. *)
Lemma Delete_then_Set_starts_over_witness :
  lru.entry_of
    (twoQ.recent (twoQ.Set_ 0 (twoQ.Delete (scenario.after_sets 0) "1") "1" "uno")) "1"
  = Some (lru.Entry "1" "uno" None)
  /\ lru.entry_of
       (twoQ.frequent (twoQ.Set_ 0 (twoQ.Delete (scenario.after_sets 0) "1") "1" "uno")) "1"
     = None
  /\ lru.entry_of
       (twoQ.recentEvict (twoQ.Set_ 0 (twoQ.Delete (scenario.after_sets 0) "1") "1" "uno")) "1"
     = None.
Proof.
  apply (Delete_then_Set_starts_over 0 (scenario.after_sets 0) "1" "uno").
  vm_compute. reflexivity.
Defined.

(** X11 after the five [Set] calls: setting key 3 again, which [recent]
    holds, keeps key 2 held. *)
Lemma resident_access_evicts_nothing_witness :
  resident "2" (twoQ.Set_ 0 (twoQ.run (scenario.fresh 4) scenario.sets_run) "3" "drei")
  <-> resident "2" (twoQ.run (scenario.fresh 4) scenario.sets_run).
Proof.
  destruct (resident_access_evicts_nothing 4 0.25 0.5 (scenario.fresh 4)
              scenario.sets_run 0 "3" "drei" "2") as [_ H].
  - reflexivity.
  - vm_compute. reflexivity.
  - exact sets_run_plain.
  - apply H. left. vm_compute. right; left; reflexivity.
Defined.

(** X12 on the mixed run. *)
Lemma Clear_resets_witness :
  twoQ.Clear (twoQ.run (scenario.fresh 4) scenario.mixed_run) = scenario.fresh 4.
Proof.
  refine (proj1 (Clear_resets 4 0.25 0.5 (scenario.fresh 4) scenario.mixed_run _)).
  reflexivity.
Defined.

(** C7 at capacity 4 with ratios 0 and 0.5, and at capacity 4 with ratios
    1.5 and 0.5. *)
Lemma New2QParams_accepts_witness :
  (is_Some (twoQ.New2QParams (K:=string) (V:=string) 4 0 0.5)
   <-> 0 < 4 /\ in_unit 0 /\ in_unit 0.5)
  /\ (is_Some (twoQ.New2QParams (K:=string) (V:=string) 4 1.5 0.5)
      <-> 0 < 4 /\ in_unit 1.5 /\ in_unit 0.5).
Proof.
  split.
  - apply (New2QParams_accepts (K:=string) (V:=string) 4 0 0.5); reflexivity.
  - apply (New2QParams_accepts (K:=string) (V:=string) 4 1.5 0.5); reflexivity.
Defined.
